(** * File-sharing chat backend: a shallow embedding of [backend/index.js]

    The backend is a GraphQL server holding chat messages in an in-memory
    array.  A mutation ([postMessage]) optionally stores an uploaded file on
    disk, appends a record to the array and publishes it on a pub/sub topic;
    a query returns the array; a subscription hands out an iterator on the
    topic.  This file embeds the resolvers as state-passing functions over an
    explicit [World] (message array, file system, pub/sub registry) and
    proves the properties the specification states about them.

    The external collaborators the resolvers call (uuid, Node's [path] and
    [fs], graphql-subscriptions' [PubSub], the static file middleware) are
    modelled as far as the resolvers use them; each model says which library
    behaviour it stands for.  Paths are POSIX paths.  One call of a resolver
    is one step: the array and the topic are touched only in the synchronous
    tail of the mutation, after its last [await]. *)

From Stdlib Require Import ZArith Ascii String List Lia.
From Stdlib.Strings Require Import Byte.
From stdpp Require Import gmap strings list fin_maps pretty.

Local Open Scope Z_scope.

(** ** Identifiers: [uuidv4()] from the uuid package *)

Module Uuid.

(** One hexadecimal digit, lower case. *)
Definition hex_digit (d : Z) : ascii :=
  match d with
  | 0 => "0" | 1 => "1" | 2 => "2" | 3 => "3"
  | 4 => "4" | 5 => "5" | 6 => "6" | 7 => "7"
  | 8 => "8" | 9 => "9" | 10 => "a" | 11 => "b"
  | 12 => "c" | 13 => "d" | 14 => "e" | _ => "f"
  end%char.

(** [byteToHex[i] = (i + 0x100).toString(16).slice(1)]: two digits. *)
Definition byteToHex (b : Z) : string :=
  String (hex_digit (b / 16)) (String (hex_digit (b mod 16)) "").

(** [arr[i]] on the 16-byte array of random values. *)
Definition byte_at (arr : list Z) (i : nat) : Z := arr !!! i.

(** [unsafeStringify(arr)]: 8-4-4-4-12 hexadecimal digits. *)
Definition unsafeStringify (arr : list Z) : string :=
  byteToHex (byte_at arr 0) +:+ byteToHex (byte_at arr 1) +:+
  byteToHex (byte_at arr 2) +:+ byteToHex (byte_at arr 3) +:+ "-" +:+
  byteToHex (byte_at arr 4) +:+ byteToHex (byte_at arr 5) +:+ "-" +:+
  byteToHex (byte_at arr 6) +:+ byteToHex (byte_at arr 7) +:+ "-" +:+
  byteToHex (byte_at arr 8) +:+ byteToHex (byte_at arr 9) +:+ "-" +:+
  byteToHex (byte_at arr 10) +:+ byteToHex (byte_at arr 11) +:+
  byteToHex (byte_at arr 12) +:+ byteToHex (byte_at arr 13) +:+
  byteToHex (byte_at arr 14) +:+ byteToHex (byte_at arr 15).

(** The version and variant bits of RFC 4122, section 4.4:
    [rnds[6] = (rnds[6] & 0x0f) | 0x40; rnds[8] = (rnds[8] & 0x3f) | 0x80]. *)
Definition set_version (rnds : list Z) : list Z :=
  let rnds := <[6%nat := Z.lor (Z.land (byte_at rnds 6) 15) 64]> rnds in
  <[8%nat := Z.lor (Z.land (byte_at rnds 8) 63) 128]> rnds.

(** [v4()] given the 16 bytes its random source returned. *)
Definition v4 (rnds : list Z) : string := unsafeStringify (set_version rnds).

(** What the random source of the package delivers: a [Uint8Array(16)]. *)
Definition random_ok (rnds : list Z) : Prop :=
  length rnds = 16%nat ∧ Forall (λ b, 0 ≤ b < 256) rnds.

End Uuid.

(** ** Strings *)

Fixpoint contains_char (p : ascii → bool) (s : string) : bool :=
  match s with
  | "" => false
  | String c r => p c || contains_char p r
  end.

Fixpoint all_chars (p : ascii → bool) (s : string) : bool :=
  match s with
  | "" => true
  | String c r => p c && all_chars p r
  end.

Fixpoint map_chars (f : ascii → ascii) (s : string) : string :=
  match s with
  | "" => ""
  | String c r => String (f c) (map_chars f r)
  end.

Fixpoint take_until (p : ascii → bool) (s : string) : string :=
  match s with
  | "" => ""
  | String c r => if p c then "" else String c (take_until p r)
  end.

Fixpoint strip_prefix (p s : string) : option string :=
  match p, s with
  | "", _ => Some s
  | String a p', String b s' =>
      if Ascii.eqb a b then strip_prefix p' s' else None
  | _, "" => None
  end.

(** ** Paths: the POSIX flavour of Node's [path] module *)

Module Path.

Definition is_sep (c : ascii) : bool := Ascii.eqb c "/".

(** [path.split('/')]: the segments between separators; never empty. *)
Fixpoint segments (s : string) : list string :=
  match s with
  | "" => [""]
  | String c r =>
      if is_sep c then "" :: segments r
      else match segments r with
           | hd :: tl => String c hd :: tl
           | [] => [String c ""]
           end
  end.

Definition isAbsolute (s : string) : bool :=
  match s with String c _ => is_sep c | "" => false end.

Fixpoint trailingSeparator (s : string) : bool :=
  match s with
  | "" => false
  | String c "" => is_sep c
  | String _ r => trailingSeparator r
  end.

(** One segment against the stack of segments kept so far (top first):
    empty and [.] segments vanish, [..] removes the segment before it or,
    with nothing to remove, is kept when the path may climb above its
    start. *)
Definition norm_step (allowAboveRoot : bool) (stack : list string)
    (seg : string) : list string :=
  if String.eqb seg "" || String.eqb seg "." then stack
  else if String.eqb seg ".." then
    match stack with
    | top :: below =>
        if String.eqb top ".." then
          (if allowAboveRoot then seg :: stack else stack)
        else below
    | [] => if allowAboveRoot then [seg] else []
    end
  else seg :: stack.

(** [normalizeString(path, allowAboveRoot, '/')]. *)
Definition normalizeString (path : string) (allowAboveRoot : bool) : string :=
  String.concat "/"
    (rev (fold_left (norm_step allowAboveRoot) (segments path) [])).

(** [path.normalize(path)]. *)
Definition normalize (path : string) : string :=
  if String.eqb path "" then "."
  else
    let abs := isAbsolute path in
    let trailing := trailingSeparator path in
    let p := normalizeString path (negb abs) in
    if String.eqb p "" then
      (if abs then "/" else if trailing then "./" else ".")
    else
      let p := if trailing then p +:+ "/" else p in
      if abs then "/" +:+ p else p.

(** [path.join(a, b)]: the non-empty arguments joined by [/], normalized. *)
Definition join (a b : string) : string :=
  if String.eqb a "" then
    (if String.eqb b "" then "." else normalize b)
  else if String.eqb b "" then normalize a
  else normalize (a +:+ "/" +:+ b).

Fixpoint drop_while (p : ascii → bool) (l : list ascii) : list ascii :=
  match l with
  | c :: r => if p c then drop_while p r else l
  | [] => []
  end.

(** [path.dirname(path)]: scan from the right, skipping the separators
    that end the path and then the last segment; what is left of the
    separator found there is the directory. *)
Definition dirname (path : string) : string :=
  match path with
  | "" => "."
  | String c rest =>
      let hasRoot := is_sep c in
      let r1 := drop_while is_sep (rev (list_ascii_of_string rest)) in
      let r2 := drop_while (λ x, negb (is_sep x)) r1 in
      match r2 with
      | [] => if hasRoot then "/" else "."
      | _ :: r3 =>
          if hasRoot && Nat.eqb (length r3) 0 then "//"
          else String c (string_of_list_ascii (rev r3))
      end
  end.

(** [path.resolve(p)] for one argument, in a process whose working
    directory is [cwd]: absolute, normalized, no trailing separator. *)
Definition resolve (cwd p : string) : string :=
  let full := if isAbsolute p then p else cwd +:+ "/" +:+ p in
  "/" +:+ normalizeString full false.

End Path.

(** ** Data model: the GraphQL types [File] and [Message] *)

Record File := {
  filename : string;
  mimetype : string;
  encoding : string;
  url : string;
}.

(** [content] and [file] are nullable in the schema: [None] is [null]. *)
Record Message := {
  id : string;
  sender : string;
  content : option string;
  file : option File;
}.

(** The object a graphql-upload promise resolves to.  [createReadStream]
    stands for the bytes the stream it returns delivers (a stream that
    breaks off before its end is not modelled). *)
Record Upload := {
  createReadStream : list byte;
  upload_filename : string;
  upload_mimetype : string;
  upload_encoding : string;
}.

(** How a promise settles when awaited. *)
Inductive Settled (A : Type) : Type :=
| Fulfilled (value : A)
| RejectedWith (reason : string).
Arguments Fulfilled {A} value.
Arguments RejectedWith {A} reason.

(** The JavaScript values the resolver's [file] argument can hold, as far as
    the resolver inspects them: whether the value is truthy and whether its
    [then] property is a function.  [JObject] is an object without a callable
    [then]; [JThenable] is one with it, and carries what [await] yields. *)
Inductive JsValue : Type :=
| JUndefined
| JNull
| JBoolean (b : bool)
| JNumber (n : Z)
| JString (s : string)
| JObject
| JThenable (settles : Settled Upload).

(** [Boolean(v)]. *)
Definition truthy (v : JsValue) : bool :=
  match v with
  | JUndefined | JNull => false
  | JBoolean b => b
  | JNumber n => negb (n =? 0)
  | JString s => negb (String.eqb s "")
  | JObject | JThenable _ => true
  end.

(** [typeof v.then === 'function'], for a [v] that is neither [null] nor
    [undefined]. *)
Definition then_is_function (v : JsValue) : bool :=
  match v with JThenable _ => true | _ => false end.

(** ** Pub/sub: [PubSub] of graphql-subscriptions *)

Record Payload := { messageAdded : Message }.

(** An iterator returned by [asyncIterator]: the triggers it is for;
    whether its listeners are registered, which happens at its first
    [next()] and not before; the number of [next()] calls waiting for a
    value; the values waiting for a [next()]; and the values its [next()]
    calls were resolved with so far, oldest first (a log). *)
Record AsyncIterator := {
  eventNames : list string;
  allSubscribed : bool;
  pullQueue : nat;
  pushQueue : list Payload;
  yielded : list Payload;
}.

Module PubSub.

(** The registry: every iterator handed out, in subscription order.  An
    iterator is known by its position. *)
Abbreviation t := (list AsyncIterator).

(** [pushValue(event)], the listener of an iterator: the oldest waiting
    [next()] is resolved with the event, or the event is queued. *)
Definition pushValue (payload : Payload) (it : AsyncIterator) : AsyncIterator :=
  match pullQueue it with
  | S n =>
      {| eventNames := eventNames it; allSubscribed := allSubscribed it;
         pullQueue := n; pushQueue := pushQueue it;
         yielded := yielded it ++ [payload] |}
  | O =>
      {| eventNames := eventNames it; allSubscribed := allSubscribed it;
         pullQueue := O; pushQueue := pushQueue it ++ [payload];
         yielded := yielded it |}
  end.

(** What emitting on a trigger does to one iterator: once its listeners are
    registered, one per entry of [eventNames], each listener on the trigger
    is called with the payload. *)
Definition emit (triggerName : string) (payload : Payload)
    (it : AsyncIterator) : AsyncIterator :=
  if allSubscribed it then
    Nat.iter (length (List.filter (String.eqb triggerName) (eventNames it)))
      (pushValue payload) it
  else it.

(** [pubsub.publish(triggerName, payload)]. *)
Definition publish (triggerName : string) (payload : Payload) (ps : t) : t :=
  map (emit triggerName payload) ps.

(** [pubsub.asyncIterator(triggers)]: a new iterator, not listening yet. *)
Definition asyncIterator (triggers : list string) (ps : t) : nat * t :=
  (length ps,
   ps ++ [{| eventNames := triggers; allSubscribed := false; pullQueue := O;
             pushQueue := []; yielded := [] |}]).

(** [next()] on an iterator: the listeners are registered if they are not
    yet; then the oldest queued value is taken, or the call waits. *)
Definition pull (it : AsyncIterator) : AsyncIterator :=
  match pushQueue it with
  | value :: rest =>
      {| eventNames := eventNames it; allSubscribed := true;
         pullQueue := pullQueue it; pushQueue := rest;
         yielded := yielded it ++ [value] |}
  | [] =>
      {| eventNames := eventNames it; allSubscribed := true;
         pullQueue := S (pullQueue it); pushQueue := [];
         yielded := yielded it |}
  end.

(** [next()] on iterator [k]. *)
Definition next (k : nat) (ps : t) : t := alter pull k ps.

(** The payloads an iterator has been handed: those its [next()] calls got
    and those queued for the coming ones. *)
Definition handed (it : AsyncIterator) : list Payload := yielded it ++ pushQueue it.

(** The payloads iterator [k] has been handed. *)
Definition received (k : nat) (ps : t) : list Payload :=
  match ps !! k with Some it => handed it | None => [] end.

End PubSub.

(** ** The process state *)

(** [messages]: the module-level array.  [disk]: the regular files of the
    file system, by path.  [pubsub]: the module-level [PubSub].
    [writeStreams]: the paths [fs.createWriteStream] was called with, oldest
    first (a log, read by no resolver). *)
Record World := {
  messages : list Message;
  disk : gmap string (list byte);
  pubsub : PubSub.t;
  writeStreams : list string;
}.

(** Where the process runs: [__filename], the absolute path of the module
    ([fileURLToPath(import.meta.url)]), and [process.cwd()]. *)
Record Env := {
  module_filename : string;
  process_cwd : string;
}.

(** The state after the module body has run, on a disk holding the files
    [d] (directories, such as the one [mkdirSync] creates, are not
    represented). *)
Definition boot (d : gmap string (list byte)) : World :=
  {| messages := []; disk := d; pubsub := []; writeStreams := [] |}.

Definition __dirname (env : Env) : string := Path.dirname (module_filename env).
Definition uploadsDir (env : Env) : string := Path.join (__dirname env) "uploads".
Definition MESSAGE_ADDED : string := "MESSAGE_ADDED".
Definition PORT : Z := 4000.

(** ** Resolvers run in a state-and-rejection monad *)

Inductive Outcome (A : Type) : Type :=
| Returned (value : A)
| Rejected (reason : string).
Arguments Returned {A} value.
Arguments Rejected {A} reason.

Definition Async (A : Type) : Type := World → Outcome A * World.

Global Instance Async_ret : MRet Async := λ A a w, (Returned a, w).
Global Instance Async_bind : MBind Async := λ A B f m w,
  match m w with
  | (Returned a, w') => f a w'
  | (Rejected e, w') => (Rejected e, w')
  end.

(** [await p]. *)
Definition await {A} (p : Settled A) : Async A := λ w,
  match p with
  | Fulfilled v => (Returned v, w)
  | RejectedWith e => (Rejected e, w)
  end.

(** [const upload = await file; const { createReadStream, ... } = upload;
    const stream = createReadStream()].  Awaiting a value that is not
    thenable yields the value itself, which has no [createReadStream] to
    call. *)
Definition await_upload (file : JsValue) : Async Upload :=
  match file with
  | JThenable p => await p
  | _ => λ w, (Rejected "TypeError: createReadStream is not a function", w)
  end.

(** How the operating system answers one [createWriteStream] and the pipe
    into it: the stream finishes; or the file cannot be opened; or it is
    opened and an error stops the stream after [written] bytes. *)
Inductive WriteOutcome : Type :=
| Finish
| OpenError (reason : string)
| WriteError (reason : string) (written : nat).

(** [new Promise((resolve, reject) => { const writeStream =
    fs.createWriteStream(filepath); stream.pipe(writeStream);
    writeStream.on('finish', resolve); writeStream.on('error', reject) })]. *)
Definition pipe_to_file (filepath : string) (stream : list byte)
    (o : WriteOutcome) : Async unit := λ w,
  let opened d :=
    {| messages := messages w; disk := d; pubsub := pubsub w;
       writeStreams := writeStreams w ++ [filepath] |} in
  match o with
  | Finish => (Returned (), opened (<[filepath := stream]> (disk w)))
  | OpenError e => (Rejected e, opened (disk w))
  | WriteError e n => (Rejected e, opened (<[filepath := take n stream]> (disk w)))
  end.

(** The reason the promise around the write is rejected with, if it is. *)
Definition write_error (o : WriteOutcome) : option string :=
  match o with
  | Finish => None
  | OpenError e => Some e
  | WriteError e _ => Some e
  end.

(** [messages.push(message)]. *)
Definition messages_push (message : Message) : Async unit := λ w,
  (Returned (),
   {| messages := messages w ++ [message]; disk := disk w; pubsub := pubsub w;
      writeStreams := writeStreams w |}).

(** [pubsub.publish(trigger, payload)]. *)
Definition pubsub_publish (trigger : string) (payload : Payload) : Async unit := λ w,
  (Returned (),
   {| messages := messages w; disk := disk w;
      pubsub := PubSub.publish trigger payload (pubsub w);
      writeStreams := writeStreams w |}).

(** What the surroundings answer during one [postMessage] call: the outcome
    of the disk write (consulted only when a file is written) and the 16
    bytes the random source gives [uuidv4]. *)
Record Ambient := {
  write_outcome : WriteOutcome;
  random_bytes : list Z;
}.

(** [Mutation.postMessage]. *)
Definition postMessage (env : Env) (amb : Ambient)
    (sender : string) (content : option string) (file : JsValue) : Async Message :=
  fileData ← (if truthy file && then_is_function file then
                upload ← await_upload file;
                let filename := upload_filename upload in
                let filepath := Path.join (uploadsDir env) filename in
                pipe_to_file filepath (createReadStream upload) (write_outcome amb);;
                mret (Some {| filename := filename;
                              mimetype := upload_mimetype upload;
                              encoding := upload_encoding upload;
                              url := "http://localhost:4000/uploads/" +:+ filename |})
              else mret None);
  let message := {| id := Uuid.v4 (random_bytes amb); sender := sender;
                    content := content; file := fileData |} in
  messages_push message;;
  pubsub_publish MESSAGE_ADDED {| messageAdded := message |};;
  mret message.

(** [Query.messages]. *)
Definition query_messages (w : World) : list Message := messages w.

(** [Subscription.messageAdded.subscribe]. *)
Definition messageAdded_subscribe (w : World) : nat * World :=
  let '(k, ps) := PubSub.asyncIterator [MESSAGE_ADDED] (pubsub w) in
  (k, {| messages := messages w; disk := disk w; pubsub := ps;
         writeStreams := writeStreams w |}).

(** [iterator.next()] on the iterator the resolver returned as number [k]. *)
Definition iterator_next (k : nat) (w : World) : World :=
  {| messages := messages w; disk := disk w; pubsub := PubSub.next k (pubsub w);
     writeStreams := writeStreams w |}.

(** ** The WebSocket subscription server *)

(** A GraphQL schema, as far as the transport looks at it: it has to be
    one. *)
Inductive Schema : Type :=
| ExecutableSchema.

(** [apolloServer.schema], the schema [SubscriptionServer.create] is given:
    a server of the API the module uses ([start()], the [drainServer] hook)
    has no such property, so the expression is [undefined]. *)
Definition apolloServer_schema : option Schema := None.

(** The answer to a client's subscription start. *)
Inductive StartAnswer : Type :=
| Streaming (k : nat)
| StartError (message : string).

(** The transport on a start message for [messageAdded]: it validates the
    operation against its schema, which throws when there is none, and an
    error goes back to the client; with a schema it calls the [subscribe]
    resolver and begins to pull the iterator it returns. *)
Definition subscriptionServer_start (schema : option Schema) (w : World)
    : StartAnswer * World :=
  match schema with
  | None => (StartError "Expected undefined to be a GraphQL schema.", w)
  | Some _ =>
      (Streaming (messageAdded_subscribe w).1,
       iterator_next (messageAdded_subscribe w).1 (messageAdded_subscribe w).2)
  end.

(** ** The GraphQL layer around the resolvers *)

(** The response to a [postMessage] operation: a resolver that rejects
    leaves the nullable field [null] and puts the reason in [errors]. *)
Record Response := {
  data : option Message;
  errors : list string;
}.

Definition execute_postMessage (env : Env) (amb : Ambient)
    (sender : string) (content : option string) (file : JsValue)
    (w : World) : Response * World :=
  match postMessage env amb sender content file w with
  | (Returned m, w') => ({| data := Some m; errors := [] |}, w')
  | (Rejected e, w') => ({| data := None; errors := [e] |}, w')
  end.

(** The steps of the process, one at a time: a call of one of the three
    resolvers, or a [next()] on an iterator the subscription resolver
    returned. *)
Inductive Request : Type :=
| PostMessage (amb : Ambient) (sender : string) (content : option string)
    (file : JsValue)
| Subscribe
| QueryMessages
| Next (k : nat).

Definition handle (env : Env) (w : World) (r : Request) : World :=
  match r with
  | PostMessage amb s c f => (postMessage env amb s c f w).2
  | Subscribe => (messageAdded_subscribe w).2
  | QueryMessages => w
  | Next k => iterator_next k w
  end.

Definition run (env : Env) (rs : list Request) (w : World) : World :=
  fold_left (handle env) rs w.

(** The record a request's mutation returned, if it is a mutation that
    returned one. *)
Definition returned_by (env : Env) (w : World) (r : Request) : list Message :=
  match r with
  | PostMessage amb s c f =>
      match (postMessage env amb s c f w).1 with
      | Returned m => [m]
      | Rejected _ => []
      end
  | _ => []
  end.

(** The records the mutations of a run returned, in the order applied. *)
Fixpoint posted (env : Env) (rs : list Request) (w : World) : list Message :=
  match rs with
  | [] => []
  | r :: rs' => returned_by env w r ++ posted env rs' (handle env w r)
  end.

(** What the clients of the running server can send: a mutation, the query,
    or a subscription start, which goes through the subscription server as
    the module created it. *)
Inductive ClientMessage : Type :=
| SendMutation (amb : Ambient) (sender : string) (content : option string)
    (file : JsValue)
| SendQuery
| SendStart.

Definition serve (env : Env) (w : World) (c : ClientMessage) : World :=
  match c with
  | SendMutation amb s c f => (postMessage env amb s c f w).2
  | SendQuery => w
  | SendStart => (subscriptionServer_start apolloServer_schema w).2
  end.

Definition serve_all (env : Env) (cs : list ClientMessage) (w : World) : World :=
  fold_left (serve env) cs w.

(** ** HTTP: the Express routes of the process *)

Module Http.

Definition hex_value (c : ascii) : option N :=
  let n := N_of_ascii c in
  if (48 <=? n)%N && (n <=? 57)%N then Some (n - 48)%N
  else if (97 <=? n)%N && (n <=? 102)%N then Some (n - 87)%N
  else if (65 <=? n)%N && (n <=? 70)%N then Some (n - 55)%N
  else None.

(** [decodeURIComponent], byte by byte: [%XX] becomes the byte [XX]; a
    [%] without two hexadecimal digits is an error.  (The check that the
    decoded bytes are UTF-8 is left out.) *)
Fixpoint decode (s : string) : option string :=
  match s with
  | "" => Some ""
  | String c r =>
      if Ascii.eqb c "%" then
        match r with
        | String h (String l r') =>
            match hex_value h, hex_value l with
            | Some a, Some b =>
                String (ascii_of_N (16 * a + b)) <$> decode r'
            | _, _ => None
            end
        | _ => None
        end
      else String c <$> decode r
  end.

(** [UP_PATH_REGEXP = /(?:^|[\\/])\.\.(?:[\\/]|$)/]: a [..] segment,
    with either slash as separator. *)
Definition up_path (p : string) : bool :=
  existsb (String.eqb "..")
    (Path.segments (map_chars (λ c, if Ascii.eqb c "\" then "/"%char else c) p)).

Definition starts_with_dot (part : string) : bool :=
  match part with String c _ => Ascii.eqb c "." | "" => false end.

(** [containsDotFile(parts)]. *)
Definition containsDotFile (parts : list string) : bool :=
  existsb (λ part, Nat.ltb 1 (String.length part) && starts_with_dot part) parts.

(** [express.static(root)] on the request path left after the mount point:
    the body of the file served, or [None] when the middleware passes the
    request on (with its default options every refusal is passed on).
    Follows [send]: decode, refuse NUL bytes, normalize below the root,
    refuse paths that climb, skip dot files, then the index file for a
    path ending in a slash or else the file itself.  A directory is
    answered with a redirect; the disk holds files only, so it shows as
    no file. *)
Definition serve_static (cwd root : string) (d : gmap string (list byte))
    (path : string) : option (list byte) :=
  match decode path with
  | None => None
  | Some p =>
      if contains_char (Ascii.eqb zero) p then None
      else
        let p := if String.eqb p "" then p else Path.normalize ("./" +:+ p) in
        if up_path p then None
        else
          let parts := Path.segments p in
          let full := Path.normalize (Path.join (Path.resolve cwd root) p) in
          if containsDotFile parts && starts_with_dot (List.last parts "") then None
          else if Path.trailingSeparator path then d !! Path.join full "index.html"
          else d !! full
  end.

Definition lower (c : ascii) : ascii :=
  let n := N_of_ascii c in
  if (65 <=? n)%N && (n <=? 90)%N then ascii_of_N (n + 32) else c.

(** What is left of [s] after the prefix [p], compared without case. *)
Fixpoint strip_prefix_ci (p s : string) : option string :=
  match p, s with
  | "", _ => Some s
  | String a p', String b s' =>
      if Ascii.eqb (lower a) (lower b) then strip_prefix_ci p' s' else None
  | _, "" => None
  end.

(** [app.use(mount, ...)]: the request path below the mount point, when
    the path is the mount point or lies under it. *)
Definition below_mount (mount pathname : string) : option string :=
  match strip_prefix_ci mount pathname with
  | Some "" => Some ""
  | Some (String c r) => if Path.is_sep c then Some (String c r) else None
  | None => None
  end.

(** The origin of a server on this machine listening on [port]. *)
Definition origin (port : Z) : string := "http://localhost:" +:+ pretty port.

(** The path a client asks the server listening on [port] for when it GETs
    [url]: the part of the URL after the origin, up to the query or the
    fragment.  [None] when the URL names another origin.  The path is sent
    as written. *)
Definition request_path (port : Z) (url : string) : option string :=
  match strip_prefix (origin port) url with
  | None => None
  | Some rest =>
      let is_end c := Ascii.eqb c "?" || Ascii.eqb c "#" in
      match rest with
      | "" => Some "/"
      | String c _ =>
          if Path.is_sep c then Some (take_until is_end rest)
          else if is_end c then Some "/"
          else None
      end
  end.

Inductive Answer : Type :=
| Ok200 (body : list byte)
| NotFound404
| Apollo
| NoAnswer.

Definition liveness : string :=
  "🚀 GraphQL File Sharing Server is running! Use POST /graphql".

(** A GET of [url] at the server listening on [port]: the root route, then
    the static mount on [/uploads], then the GraphQL endpoint (answered by
    Apollo, not modelled), then Express's 404. *)
Definition get (port : Z) (cwd uploads : string) (d : gmap string (list byte))
    (url : string) : Answer :=
  match request_path port url with
  | None => NoAnswer
  | Some pathname =>
      let next :=
        match below_mount "/graphql" pathname with
        | Some _ => Apollo
        | None => NotFound404
        end in
      if String.eqb pathname "/" then Ok200 (list_byte_of_string liveness)
      else
        match below_mount "/uploads" pathname with
        | Some sub =>
            match serve_static cwd uploads d sub with
            | Some body => Ok200 body
            | None => next
            end
        | None => next
        end
  end.

End Http.

(** The value of a hexadecimal digit, [-1] for another character. *)
Definition digit_value (c : ascii) : Z :=
  match Http.hex_value c with Some n => Z.of_N n | None => -1 end.

(** [GET url] against the running process, which listens on [PORT]. *)
Definition http_get (env : Env) (w : World) (url : string) : Http.Answer :=
  Http.get PORT (process_cwd env) (uploadsDir env) (disk w) url.

(** The record the mutation builds. *)
Definition record_of (amb : Ambient) (sender : string) (content : option string)
    (fileData : option File) : Message :=
  {| id := Uuid.v4 (random_bytes amb); sender := sender; content := content;
     file := fileData |}.

(** The descriptor the mutation builds for an upload. *)
Definition descriptor_of (u : Upload) : File :=
  {| filename := upload_filename u; mimetype := upload_mimetype u;
     encoding := upload_encoding u;
     url := "http://localhost:4000/uploads/" +:+ upload_filename u |}.

(** The state after the synchronous tail of the mutation. *)
Definition committed (m : Message) (w : World) : World :=
  {| messages := messages w ++ [m]; disk := disk w;
     pubsub := PubSub.publish MESSAGE_ADDED {| messageAdded := m |} (pubsub w);
     writeStreams := writeStreams w |}.

(** Whether the mutation returns a record: it does unless the awaited
    upload is rejected or the write fails. *)
Definition resolves (amb : Ambient) (file : JsValue) : bool :=
  match file with
  | JThenable (Fulfilled _) =>
      match write_outcome amb with Finish => true | _ => false end
  | JThenable (RejectedWith _) => false
  | _ => true
  end.

(** The data-model invariant on one record: content and/or a file. *)
Definition has_body (m : Message) : Prop :=
  is_Some (content m) ∨ is_Some (file m).

(** An iterator on the topic and nothing else. *)
Definition on_topic (it : AsyncIterator) : Prop := eventNames it = [MESSAGE_ADDED].

(** No [next()] waits while values are queued. *)
Definition settled (it : AsyncIterator) : Prop :=
  pullQueue it = O ∨ pushQueue it = [].

(** A plain file name: ASCII letters, digits, [.], [-] and [_], at least
    one character, the first not a dot. *)
Definition plain_char (c : ascii) : bool :=
  let n := N_of_ascii c in
  ((48 <=? n)%N && (n <=? 57)%N) || ((65 <=? n)%N && (n <=? 90)%N)
  || ((97 <=? n)%N && (n <=? 122)%N)
  || (n =? 45)%N || (n =? 46)%N || (n =? 95)%N.

Definition plain_name (s : string) : bool :=
  match s with
  | "" => false
  | String c _ => negb (Ascii.eqb c ".") && all_chars plain_char s
  end.

(** A segment that normalization keeps as it is. *)
Definition clean (seg : string) : bool :=
  negb (String.eqb seg "") && negb (String.eqb seg ".")
  && negb (String.eqb seg "..") && negb (contains_char Path.is_sep seg).

(** An absolute path in normal form: [/] followed by clean segments. *)
Definition canonical (path : string) (l : list string) : Prop :=
  l ≠ [] ∧ Forall (λ seg, clean seg = true) l ∧ path = "/" +:+ String.concat "/" l.

(** ** Sample inputs *)

Definition sample_env : Env :=
  {| module_filename := "/srv/app/backend/index.js"; process_cwd := "/home/node" |}.

Definition sample_amb (b : Z) : Ambient :=
  {| write_outcome := Finish; random_bytes := replicate 16 b |}.

Definition failing_amb : Ambient :=
  {| write_outcome := WriteError "ENOSPC: no space left on device, write" 1;
     random_bytes := replicate 16 7 |}.

Definition sample_upload (name : string) : Upload :=
  {| createReadStream := ["h"; "i"]%byte; upload_filename := name;
     upload_mimetype := "text/plain"; upload_encoding := "7bit" |}.

(** ** The front-ends: [sender/src/App.js] and [receiver/src/App.js]

    The two components differ in their texts only; one model serves both. *)

Module View.

(** A message as the three operations of the front-ends select it:
    [id sender content file { filename url mimetype }]. *)
Record FileInfo := {
  filename : string;
  url : string;
  mimetype : string;
}.

Record Msg := {
  id : string;
  sender : string;
  content : option string;
  file : option FileInfo;
}.

End View.

(** The selection sets applied to a record of the server. *)
Definition select_file (f : File) : View.FileInfo :=
  {| View.filename := filename f; View.url := url f; View.mimetype := mimetype f |}.

Definition select (m : Message) : View.Msg :=
  {| View.id := id m; View.sender := sender m; View.content := content m;
     View.file := select_file <$> file m |}.

(** The updater of the subscription's [onData]:
    [(prev) => prev.some((msg) => msg.id === newMsg.id) ? prev : [...prev, newMsg]]. *)
Definition onData (prev : list View.Msg) (newMsg : View.Msg) : list View.Msg :=
  if existsb (λ msg, String.eqb (View.id msg) (View.id newMsg)) prev then prev
  else prev ++ [newMsg].

(** The effect on the polled [data]:
    [if (data && data.messages) setMessages(data.messages)].  The outer
    option is [data], the inner one [data.messages]. *)
Definition useEffect_data (data : option (option (list View.Msg)))
    (prev : list View.Msg) : list View.Msg :=
  match data with
  | Some (Some ms) => ms
  | _ => prev
  end.

(** The file a user picked: a browser [File]. *)
Record BrowserFile := {
  name : string;
  type : string;
  bytes : list byte;
}.

Module Component.

(** The four [useState] cells of the component. *)
Record State := {
  file : option BrowserFile;
  sender : string;
  uploaded : option View.FileInfo;
  messages : list View.Msg;
}.

End Component.

(** [handleUpload], with [uploadFile] going to the server: [wire] is what
    the upload link and the server's multipart middleware make of the
    picked file before the resolver sees it.  A response with errors, or
    without a record, throws and is caught. *)
Definition handleUpload (wire : BrowserFile → JsValue) (env : Env) (amb : Ambient)
    (st : Component.State) (w : World) : Component.State * World :=
  match Component.file st with
  | None => (st, w)
  | Some f =>
      if String.eqb (Component.sender st) "" then (st, w)
      else
        let '(resp, w') :=
          execute_postMessage env amb (Component.sender st) None (wire f) w in
        match errors resp, data resp with
        | [], Some m =>
            ({| Component.file := None;
                Component.sender := Component.sender st;
                Component.uploaded := View.file (select m);
                Component.messages := Component.messages st |}, w')
        | _, _ => (st, w')
        end
  end.

(** The element a message's file is shown as. *)
Inductive Element : Type :=
| Img
| AudioPlayer
| VideoPlayer
| Anchor.

(** [msg.file.mimetype.startsWith('image/') ? <img> :
     msg.file.mimetype.startsWith('audio/') ? <audio> :
     msg.file.mimetype.startsWith('video/') ? <video> : <a>]. *)
Definition file_element (mimetype : string) : Element :=
  if String.prefix "image/" mimetype then Img
  else if String.prefix "audio/" mimetype then AudioPlayer
  else if String.prefix "video/" mimetype then VideoPlayer
  else Anchor.

(** The upload link and the multipart middleware on a well-behaved
    transfer: a promise of the part, with the file's name, type and
    bytes. *)
Definition sample_wire (f : BrowserFile) : JsValue :=
  JThenable (Fulfilled {| createReadStream := bytes f; upload_filename := name f;
                          upload_mimetype := type f; upload_encoding := "7bit" |}).

Definition sample_file (n : string) : BrowserFile :=
  {| name := n; type := "text/plain"; bytes := ["h"; "i"]%byte |}.

Definition sample_state (f : option BrowserFile) (who : string) : Component.State :=
  {| Component.file := f; Component.sender := who; Component.uploaded := None;
     Component.messages := [] |}.

(** ** Runs: what the requests draw and what the store must satisfy *)

(** The random bytes the mutations of a run are given, in order. *)
Definition draws (rs : list Request) : list (list Z) :=
  flat_map (λ r, match r with
                 | PostMessage amb _ _ _ => [random_bytes amb]
                 | _ => []
                 end) rs.

(** A record as the mutation builds them: a 36-character identifier, and a
    URL made of the fixed prefix and the file name. *)
Definition well_formed (m : Message) : Prop :=
  String.length (id m) = 36%nat
  ∧ ∀ fd, file m = Some fd →
      url fd = "http://localhost:4000/uploads/" +:+ filename fd.

(** The segments normalization keeps of a path. *)
Definition kept_segments (dir : string) : list string :=
  rev (fold_left (Path.norm_step false) (Path.segments dir) []).

(** The file a record points to is on disk, and its URL is the fixed prefix
    followed by the file name. *)
Definition file_in_place (env : Env) (w : World) (m : Message) : Prop :=
  ∀ fd, file m = Some fd →
    is_Some (disk w !! Path.join (uploadsDir env) (filename fd))
    ∧ url fd = "http://localhost:4000/uploads/" +:+ filename fd.

(** * Properties *)

(** ** The models on the examples of the libraries' documentation *)

Example v4_zero :
  Uuid.v4 (replicate 16 0) = "00000000-0000-4000-8000-000000000000".
Proof. reflexivity. Qed.

Example v4_ff :
  Uuid.v4 (replicate 16 255) = "ffffffff-ffff-4fff-bfff-ffffffffffff".
Proof. reflexivity. Qed.

Example join_doc : Path.join "/foo/bar/baz/asdf" "quux/.." = "/foo/bar/baz/asdf".
Proof. reflexivity. Qed.

Example normalize_doc :
  Path.normalize "/foo/bar//baz/asdf/quux/.." = "/foo/bar/baz/asdf".
Proof. reflexivity. Qed.

Example normalize_up : Path.normalize "../a/../../b/" = "../../b/".
Proof. reflexivity. Qed.

Example normalize_root_up : Path.normalize "/../a" = "/a".
Proof. reflexivity. Qed.

Example normalize_dot :
  Path.normalize "a/.." = "." ∧ Path.normalize "./" = "./"
  ∧ Path.normalize "/a/.." = "/" ∧ Path.normalize ".//a.txt" = "a.txt".
Proof. repeat split. Qed.

Example dirname_doc :
  Path.dirname "/foo/bar/baz/asdf/quux" = "/foo/bar/baz/asdf"
  ∧ Path.dirname "/a" = "/" ∧ Path.dirname "a" = "." ∧ Path.dirname "/a//b" = "/a/"
  ∧ Path.dirname "//a" = "//" ∧ Path.dirname "a/b/" = "a" ∧ Path.dirname "/" = "/".
Proof. repeat split. Qed.

(** ** Identifiers *)

Section UuidFacts.
Import Uuid.

Lemma v4_length rnds : String.length (v4 rnds) = 36%nat.
Proof. reflexivity. Qed.

Lemma v4_nonempty rnds : v4 rnds ≠ "".
Proof.
  intros H. apply (f_equal String.length) in H.
  rewrite v4_length in H. discriminate.
Qed.

Lemma digit_value_hex_digit d : 0 ≤ d < 16 → digit_value (hex_digit d) = d.
Proof.
  intros Hd.
  assert (d = 0 ∨ d = 1 ∨ d = 2 ∨ d = 3 ∨ d = 4 ∨ d = 5 ∨ d = 6 ∨ d = 7 ∨
          d = 8 ∨ d = 9 ∨ d = 10 ∨ d = 11 ∨ d = 12 ∨ d = 13 ∨ d = 14 ∨ d = 15)
    as Hcases by lia.
  repeat (destruct Hcases as [-> | Hcases]; [reflexivity |]).
  subst d. reflexivity.
Qed.

Lemma byteToHex_inj a b :
  0 ≤ a < 256 → 0 ≤ b < 256 → byteToHex a = byteToHex b → a = b.
Proof.
  intros Ha Hb H. unfold byteToHex in H. injection H as Hhi Hlo.
  apply (f_equal digit_value) in Hhi, Hlo.
  rewrite !digit_value_hex_digit in Hhi, Hlo
    by (try apply Z.mod_pos_bound; try (split; [apply Z.div_pos | apply Z.div_lt_upper_bound]); lia).
  rewrite (Z.div_mod a 16), (Z.div_mod b 16) by lia. congruence.
Qed.

Lemma unsafeStringify_inj a b :
  random_ok a → random_ok b → unsafeStringify a = unsafeStringify b → a = b.
Proof.
  intros [Hla Hra] [Hlb Hrb] H.
  do 17 (destruct a as [| ? a]; try discriminate Hla).
  do 17 (destruct b as [| ? b]; try discriminate Hlb).
  repeat match goal with
         | H : Forall _ (_ :: _) |- _ => apply Forall_cons in H as [? H]
         end.
  cbv [unsafeStringify byteToHex String.append byte_at] in H.
  cbn [lookup_total list_lookup_total] in H.
  injection H; intros.
  repeat f_equal; apply byteToHex_inj; auto; unfold byteToHex; congruence.
Qed.

Lemma byte_cases (p : Z → bool) :
  forallb p (map Z.of_nat (seq 0 256)) = true →
  ∀ x, 0 ≤ x < 256 → p x = true.
Proof.
  intros H x Hx. rewrite forallb_forall in H. apply H.
  apply in_map_iff. exists (Z.to_nat x). split; [lia |].
  apply in_seq. lia.
Qed.

Lemma masked_byte_range m v x :
  forallb (λ x, (0 <=? Z.lor (Z.land x m) v) && (Z.lor (Z.land x m) v <? 256))
    (map Z.of_nat (seq 0 256)) = true →
  0 ≤ x < 256 → 0 ≤ Z.lor (Z.land x m) v < 256.
Proof.
  intros H Hx. pose proof (byte_cases _ H x Hx) as Hp. cbv beta in Hp. lia.
Qed.

Lemma set_version_ok rnds : random_ok rnds → random_ok (set_version rnds).
Proof.
  intros [Hl Hr]. unfold set_version. split.
  - by rewrite !length_insert.
  - do 17 (destruct rnds as [| ? rnds]; try discriminate Hl).
    repeat match goal with
           | H : Forall _ (_ :: _) |- _ => apply Forall_cons in H as [? H]
           end.
    cbn. repeat constructor; try lia;
      apply masked_byte_range; auto; vm_compute; reflexivity.
Qed.

(** Two draws that differ after the version and variant bits are forced
    give two identifiers. *)
Lemma v4_inj r1 r2 :
  random_ok r1 → random_ok r2 → set_version r1 ≠ set_version r2 → v4 r1 ≠ v4 r2.
Proof.
  intros H1 H2 Hne Heq. apply Hne.
  apply unsafeStringify_inj; auto using set_version_ok.
Qed.

End UuidFacts.

(** ** The mutation, case by case *)

Ltac run_resolver :=
  unfold postMessage, mbind, mret, Async_bind, Async_ret, await_upload, await,
    pipe_to_file, messages_push, pubsub_publish; cbn.

Lemma postMessage_without_upload env amb s c f w :
  truthy f && then_is_function f = false →
  postMessage env amb s c f w =
    (Returned (record_of amb s c None), committed (record_of amb s c None) w).
Proof. intros Hf. run_resolver. rewrite Hf. reflexivity. Qed.

Lemma postMessage_upload_finished env amb s c u w :
  write_outcome amb = Finish →
  postMessage env amb s c (JThenable (Fulfilled u)) w =
    (Returned (record_of amb s c (Some (descriptor_of u))),
     committed (record_of amb s c (Some (descriptor_of u)))
       {| messages := messages w;
          disk := <[Path.join (uploadsDir env) (upload_filename u) :=
                      createReadStream u]> (disk w);
          pubsub := pubsub w;
          writeStreams := writeStreams w ++
            [Path.join (uploadsDir env) (upload_filename u)] |}).
Proof. intros Ho. run_resolver. rewrite Ho. reflexivity. Qed.

Lemma postMessage_upload_failed env amb s c u w e :
  write_error (write_outcome amb) = Some e →
  ∃ d, postMessage env amb s c (JThenable (Fulfilled u)) w =
    (Rejected e,
     {| messages := messages w; disk := d; pubsub := pubsub w;
        writeStreams := writeStreams w ++
          [Path.join (uploadsDir env) (upload_filename u)] |}).
Proof.
  intros Ho. run_resolver.
  destruct (write_outcome amb); simplify_eq/=; eauto.
Qed.

Lemma postMessage_upload_rejected env amb s c e w :
  postMessage env amb s c (JThenable (RejectedWith e)) w = (Rejected e, w).
Proof. reflexivity. Qed.

(** Whatever the arguments, the mutation either returns the record it
    appended and published, or rejects having touched neither the array nor
    the topic. *)
Lemma postMessage_cases env amb s c f w :
  (∃ m d l, postMessage env amb s c f w =
      (Returned m,
       committed m {| messages := messages w; disk := d; pubsub := pubsub w;
                      writeStreams := l |})
      ∧ id m = Uuid.v4 (random_bytes amb) ∧ sender m = s ∧ content m = c)
  ∨ (∃ e d l, postMessage env amb s c f w =
      (Rejected e,
       {| messages := messages w; disk := d; pubsub := pubsub w;
          writeStreams := l |})).
Proof.
  destruct (truthy f && then_is_function f) eqn:Hf.
  - destruct f; try (rewrite andb_false_r in Hf; discriminate Hf); try discriminate Hf.
    destruct settles as [u | e].
    + destruct (write_error (write_outcome amb)) as [e |] eqn:Ho.
      * right. destruct (postMessage_upload_failed env amb s c u w e Ho) as [d Hd].
        eauto.
      * left. assert (write_outcome amb = Finish) as Hfin
          by (destruct (write_outcome amb); simplify_eq/=; done).
        rewrite (postMessage_upload_finished _ _ _ _ _ _ Hfin).
        do 3 eexists. split; [reflexivity | done].
    + right. rewrite postMessage_upload_rejected. destruct w. eauto.
  - left. rewrite (postMessage_without_upload _ _ _ _ _ _ Hf).
    exists (record_of amb s c None), (disk w), (writeStreams w).
    destruct w; done.
Qed.

Lemma postMessage_resolves env amb s c f w :
  resolves amb f = true →
  ∃ m w', postMessage env amb s c f w = (Returned m, w')
    ∧ id m = Uuid.v4 (random_bytes amb) ∧ sender m = s ∧ content m = c
    ∧ messages w' = messages w ++ [m].
Proof.
  intros Hr. destruct (postMessage_cases env amb s c f w)
    as [(m & d & l & -> & ?) | (e & d & l & Heq)].
  - exists m. eexists. split; [reflexivity |]. simpl. tauto.
  - exfalso. destruct f as [| | | | | | [u | e']]; simpl in Hr;
      try discriminate Hr;
      try (rewrite postMessage_without_upload in Heq;
           [discriminate Heq | simpl; rewrite ?andb_false_r; reflexivity]).
    destruct (write_outcome amb) eqn:Ho; try discriminate Hr.
    rewrite postMessage_upload_finished in Heq by done. discriminate Heq.
Qed.

(** ** Runs of requests *)

Lemma handle_messages env w r :
  messages (handle env w r) = messages w ++ returned_by env w r.
Proof.
  destruct r as [amb s c f | | | k0]; simpl; try by rewrite app_nil_r.
  destruct (postMessage_cases env amb s c f w)
    as [(m & d & l & -> & ?) | (e & d & l & ->)]; simpl; [done |].
  by rewrite app_nil_r.
Qed.

Lemma run_messages env rs w :
  messages (run env rs w) = messages w ++ posted env rs w.
Proof.
  revert w. unfold run. induction rs as [| r rs IH]; intros w; simpl.
  - by rewrite app_nil_r.
  - rewrite IH, handle_messages. by rewrite app_assoc.
Qed.

Lemma pushValue_handed payload it :
  settled it →
  settled (PubSub.pushValue payload it)
  ∧ PubSub.handed (PubSub.pushValue payload it) = PubSub.handed it ++ [payload]
  ∧ eventNames (PubSub.pushValue payload it) = eventNames it
  ∧ allSubscribed (PubSub.pushValue payload it) = allSubscribed it.
Proof.
  unfold settled, PubSub.pushValue, PubSub.handed.
  destruct (pullQueue it) as [| n] eqn:Hn; simpl.
  - intros _. split; [by left |]. by rewrite app_assoc.
  - intros [? | Hq]; [done |]. rewrite Hq, !app_nil_r. split; [by right | done].
Qed.

Lemma pull_handed it :
  settled it →
  settled (PubSub.pull it)
  ∧ PubSub.handed (PubSub.pull it) = PubSub.handed it
  ∧ eventNames (PubSub.pull it) = eventNames it
  ∧ allSubscribed (PubSub.pull it) = true.
Proof.
  unfold settled, PubSub.pull, PubSub.handed.
  destruct (pushQueue it) as [| v rest] eqn:Hq; simpl.
  - intros _. split; [by right | done].
  - intros [Hp | ?]; [| done]. split; [by left |]. by rewrite <- app_assoc.
Qed.

Lemma emit_listening payload it :
  on_topic it → settled it → allSubscribed it = true →
  PubSub.emit MESSAGE_ADDED payload it = PubSub.pushValue payload it.
Proof. intros Hit _ Hs. unfold PubSub.emit. by rewrite Hs, Hit. Qed.

Lemma emit_idle payload it :
  allSubscribed it = false → PubSub.emit MESSAGE_ADDED payload it = it.
Proof. intros Hs. unfold PubSub.emit. by rewrite Hs. Qed.

Lemma publish_lookup k ps it payload :
  ps !! k = Some it →
  PubSub.publish MESSAGE_ADDED payload ps !! k
    = Some (PubSub.emit MESSAGE_ADDED payload it).
Proof.
  intros Hk. unfold PubSub.publish.
  change (map ?f ps) with (f <$> ps). by rewrite list_lookup_fmap, Hk.
Qed.

Lemma next_lookup k k0 ps it :
  ps !! k = Some it →
  PubSub.next k0 ps !! k = Some (if decide (k0 = k) then PubSub.pull it else it).
Proof.
  intros Hk. unfold PubSub.next. case_decide as Hd.
  - subst k0. by rewrite list_lookup_alter_eq, Hk.
  - by rewrite list_lookup_alter_ne.
Qed.

(** A listening iterator on the topic is handed what each step returns. *)
Lemma handle_listening env w r k it :
  pubsub w !! k = Some it → on_topic it → settled it → allSubscribed it = true →
  ∃ it', pubsub (handle env w r) !! k = Some it' ∧ on_topic it' ∧ settled it'
    ∧ allSubscribed it' = true
    ∧ PubSub.handed it' = PubSub.handed it ++ map Build_Payload (returned_by env w r).
Proof.
  intros Hk Hit Hst Hs. destruct r as [amb s c f | | | k0]; simpl.
  - destruct (postMessage_cases env amb s c f w)
      as [(m & d & l & -> & ?) | (e & d & l & ->)]; simpl.
    + rewrite (publish_lookup _ _ _ _ Hk), emit_listening by done.
      destruct (pushValue_handed {| messageAdded := m |} it Hst)
        as (? & ? & Hev & Hsub).
      eexists. split; [done |]. unfold on_topic. rewrite Hev, Hsub. done.
    + exists it. by rewrite app_nil_r.
  - exists it. rewrite app_nil_r. split; [| done]. by apply lookup_app_l_Some.
  - exists it. by rewrite app_nil_r.
  - rewrite (next_lookup _ _ _ _ Hk). rewrite app_nil_r.
    destruct (pull_handed it Hst) as (? & ? & Hev & Hsub).
    case_decide; eexists; (split; [done |]); [| done].
    unfold on_topic. by rewrite Hev.
Qed.

Lemma run_listening env rs w k it :
  pubsub w !! k = Some it → on_topic it → settled it → allSubscribed it = true →
  ∃ it', pubsub (run env rs w) !! k = Some it' ∧ on_topic it' ∧ settled it'
    ∧ allSubscribed it' = true
    ∧ PubSub.handed it' = PubSub.handed it ++ map Build_Payload (posted env rs w).
Proof.
  revert w it. unfold run.
  induction rs as [| r rs IH]; intros w it Hk Hit Hst Hs; simpl.
  - exists it. by rewrite app_nil_r.
  - destruct (handle_listening env w r k it Hk Hit Hst Hs)
      as (it1 & Hk1 & Hit1 & Hst1 & Hs1 & Hq1).
    destruct (IH _ _ Hk1 Hit1 Hst1 Hs1) as (it2 & Hk2 & Hit2 & Hst2 & Hs2 & Hq2).
    exists it2. repeat (split; [done |]).
    by rewrite Hq2, Hq1, map_app, app_assoc.
Qed.

(** Any iterator on the topic is handed, at a step, nothing or what the
    step returns. *)
Lemma handle_any env w r k it :
  pubsub w !! k = Some it → on_topic it → settled it →
  ∃ it' l, pubsub (handle env w r) !! k = Some it' ∧ on_topic it' ∧ settled it'
    ∧ PubSub.handed it' = PubSub.handed it ++ map Build_Payload l
    ∧ ∀ m, m ∈ l → m ∈ returned_by env w r.
Proof.
  intros Hk Hit Hst. destruct (allSubscribed it) eqn:Hs.
  - destruct (handle_listening env w r k it Hk Hit Hst Hs)
      as (it' & ? & ? & ? & _ & ?). by exists it', (returned_by env w r).
  - destruct r as [amb s c f | | | k0]; simpl.
    + destruct (postMessage_cases env amb s c f w)
        as [(m & d & l & -> & ?) | (e & d & l & ->)]; simpl.
      * rewrite (publish_lookup _ _ _ _ Hk), emit_idle by done.
        exists it, []. rewrite app_nil_r. repeat (split; [done |]).
        intros ? []%elem_of_nil.
      * exists it, []. by rewrite app_nil_r.
    + exists it, []. rewrite app_nil_r. split; [| done]. by apply lookup_app_l_Some.
    + exists it, []. by rewrite app_nil_r.
    + rewrite (next_lookup _ _ _ _ Hk).
      destruct (pull_handed it Hst) as (? & ? & Hev & _).
      case_decide; eexists _, []; rewrite app_nil_r; (split; [done |]); [| done].
      unfold on_topic. by rewrite Hev.
Qed.

Lemma run_any env rs w k it :
  pubsub w !! k = Some it → on_topic it → settled it →
  ∃ it' l, pubsub (run env rs w) !! k = Some it' ∧ on_topic it' ∧ settled it'
    ∧ PubSub.handed it' = PubSub.handed it ++ map Build_Payload l
    ∧ ∀ m, m ∈ l → m ∈ posted env rs w.
Proof.
  revert w it. unfold run.
  induction rs as [| r rs IH]; intros w it Hk Hit Hst; simpl.
  - exists it, []. rewrite app_nil_r. repeat (split; [done |]).
    intros ? []%elem_of_nil.
  - destruct (handle_any env w r k it Hk Hit Hst)
      as (it1 & l1 & Hk1 & Hit1 & Hst1 & Hq1 & Hl1).
    destruct (IH _ _ Hk1 Hit1 Hst1) as (it2 & l2 & Hk2 & Hit2 & Hst2 & Hq2 & Hl2).
    exists it2, (l1 ++ l2). repeat (split; [done |]). split.
    + by rewrite Hq2, Hq1, map_app, app_assoc.
    + intros m [? | ?]%elem_of_app; apply elem_of_app; auto.
Qed.

(** The iterator the subscription resolver has just returned. *)
Lemma subscribe_lookup w :
  pubsub (messageAdded_subscribe w).2 !! (messageAdded_subscribe w).1
    = Some {| eventNames := [MESSAGE_ADDED]; allSubscribed := false;
              pullQueue := O; pushQueue := []; yielded := [] |}.
Proof.
  unfold messageAdded_subscribe, PubSub.asyncIterator. simpl.
  rewrite lookup_app_r by lia. by rewrite Nat.sub_diag.
Qed.

(** ** Posting messages *)

(** C1.  Posting sender "Alice", content "hi" and no file (the argument
    left out, or given as null) returns a record with a non-empty
    identifier, sender "Alice", content "hi" and file null, in every state
    and whatever the random source delivers. *)
Theorem post_text_message_record env amb w :
  ∀ f, f ∈ [JUndefined; JNull] →
  ∃ m w', postMessage env amb "Alice" (Some "hi") f w = (Returned m, w')
    ∧ id m ≠ "" ∧ sender m = "Alice" ∧ content m = Some "hi" ∧ file m = None.
Proof.
  intros f Hf.
  assert (truthy f && then_is_function f = false) as Hg
    by (repeat (apply elem_of_cons in Hf as [-> | Hf]; [reflexivity |]);
        by apply elem_of_nil in Hf).
  rewrite (postMessage_without_upload _ _ _ _ _ _ Hg).
  do 2 eexists. split; [reflexivity |]. simpl.
  split; [apply v4_nonempty | done].
Qed.

Lemma post_text_message_record_witness :
  JUndefined ∈ [JUndefined; JNull]
  ∧ ∃ m w',
      postMessage sample_env (sample_amb 7) "Alice" (Some "hi") JUndefined (boot ∅)
        = (Returned m, w')
      ∧ id m ≠ "" ∧ sender m = "Alice" ∧ content m = Some "hi" ∧ file m = None.
Proof.
  split; [apply list_elem_of_here |].
  apply (post_text_message_record sample_env (sample_amb 7) (boot ∅) JUndefined).
  apply list_elem_of_here.
Defined.

(** C2, as stated, fails: the identifier is a function of the bytes the
    random source gives [uuidv4], and nothing else makes it fresh.  Two
    successive calls that are given the same bytes return records with the
    same identifier. *)
Lemma same_draw_gives_same_identifier :
  let r1 := postMessage sample_env (sample_amb 7) "Alice" (Some "hi") JUndefined
              (boot ∅) in
  let r2 := postMessage sample_env (sample_amb 7) "Alice" (Some "hi") JUndefined
              r1.2 in
  ∃ m1 m2, r1.1 = Returned m1 ∧ r2.1 = Returned m2
    ∧ query_messages r2.2 = [m1; m2] ∧ id m1 = id m2.
Proof. by do 2 eexists. Qed.

(** C2, amended.  Two successive calls with the same sender and content,
    each of which returns a record: a query afterwards holds both records
    at the end of the list, in the order of the calls; and their
    identifiers are distinct exactly when the two draws of the random
    source (16 bytes each) differ outside the six bits uuid overwrites. *)
Theorem successive_posts_ordered_ids_follow_draws env amb1 amb2 s c f1 f2 w :
  Uuid.random_ok (random_bytes amb1) →
  Uuid.random_ok (random_bytes amb2) →
  resolves amb1 f1 = true →
  resolves amb2 f2 = true →
  ∃ m1 w1 m2 w2,
    postMessage env amb1 s c f1 w = (Returned m1, w1)
    ∧ postMessage env amb2 s c f2 w1 = (Returned m2, w2)
    ∧ query_messages w2 = query_messages w ++ [m1; m2]
    ∧ (id m1 ≠ id m2
       ↔ Uuid.set_version (random_bytes amb1) ≠ Uuid.set_version (random_bytes amb2)).
Proof.
  intros Hr1 Hr2 Hf1 Hf2.
  destruct (postMessage_resolves env amb1 s c f1 w Hf1)
    as (m1 & w1 & E1 & Hid1 & _ & _ & Hm1).
  destruct (postMessage_resolves env amb2 s c f2 w1 Hf2)
    as (m2 & w2 & E2 & Hid2 & _ & _ & Hm2).
  exists m1, w1, m2, w2. split; [done |]. split; [done |]. split.
  - unfold query_messages. by rewrite Hm2, Hm1, <- app_assoc.
  - rewrite Hid1, Hid2. split.
    + intros Hne Heq. apply Hne. unfold Uuid.v4. by rewrite Heq.
    + by apply v4_inj.
Qed.

Lemma successive_posts_ordered_ids_follow_draws_witness :
  Uuid.random_ok (random_bytes (sample_amb 7))
  ∧ Uuid.random_ok (random_bytes (sample_amb 9))
  ∧ resolves (sample_amb 7) JUndefined = true
  ∧ resolves (sample_amb 9) JUndefined = true
  ∧ ∃ m1 w1 m2 w2,
      postMessage sample_env (sample_amb 7) "Alice" (Some "hi") JUndefined (boot ∅)
        = (Returned m1, w1)
      ∧ postMessage sample_env (sample_amb 9) "Alice" (Some "hi") JUndefined w1
        = (Returned m2, w2)
      ∧ query_messages w2 = query_messages (boot ∅) ++ [m1; m2]
      ∧ (id m1 ≠ id m2
         ↔ Uuid.set_version (random_bytes (sample_amb 7))
             ≠ Uuid.set_version (random_bytes (sample_amb 9))).
Proof.
  assert (∀ b, 0 ≤ b < 256 → Uuid.random_ok (random_bytes (sample_amb b))) as Hok.
  { intros b Hb. split; [reflexivity |]. simpl. repeat constructor; lia. }
  split; [apply Hok; lia |]. split; [apply Hok; lia |].
  split; [reflexivity |]. split; [reflexivity |].
  apply (successive_posts_ordered_ids_follow_draws sample_env (sample_amb 7)
           (sample_amb 9) "Alice" (Some "hi") JUndefined JUndefined (boot ∅));
    try reflexivity; apply Hok; lia.
Defined.

(** ** Querying *)

(** C3.  The query returns the message array as it is: in every state the
    full array, after any run of requests the array the run started from
    followed by the records its mutations returned, in the order applied,
    and the empty list when the process has just started. *)
Theorem query_returns_the_store env rs w d :
  query_messages w = messages w
  ∧ query_messages (run env rs w) = query_messages w ++ posted env rs w
  ∧ query_messages (run env rs (boot d)) = posted env rs (boot d)
  ∧ query_messages (boot d) = [].
Proof.
  unfold query_messages. rewrite !run_messages. done.
Qed.

(** ** Subscriptions *)

Lemma serve_keeps_registry env w c : pubsub w = [] → pubsub (serve env w c) = [].
Proof.
  intros Hw. destruct c as [amb s c f | |]; simpl; try done.
  destruct (postMessage_cases env amb s c f w)
    as [(m & d & l & -> & _) | (e & d & l & ->)]; simpl; by rewrite Hw.
Qed.

(** With a schema in place of the missing one, a started subscription is
    handed the record of a mutation that follows: what the module is
    written to do. *)
Lemma start_with_schema_delivers schema env amb s c f w m w' :
  postMessage env amb s c f (subscriptionServer_start (Some schema) w).2
    = (Returned m, w') →
  PubSub.received (messageAdded_subscribe w).1 (pubsub w')
    = [{| messageAdded := m |}].
Proof.
  intros Hp. cbn [subscriptionServer_start snd] in Hp.
  pose proof (subscribe_lookup w) as Hk.
  assert (pubsub (iterator_next (messageAdded_subscribe w).1 (messageAdded_subscribe w).2)
            !! (messageAdded_subscribe w).1
          = Some (PubSub.pull {| eventNames := [MESSAGE_ADDED]; allSubscribed := false;
                                 pullQueue := O; pushQueue := []; yielded := [] |}))
    as Hk1.
  { unfold iterator_next. cbn [pubsub]. rewrite (next_lookup _ _ _ _ Hk).
    by case_decide. }
  destruct (handle_listening env _ (PostMessage amb s c f) _ _ Hk1)
    as (it' & Hit' & _ & _ & _ & Hq); try done; [by right |].
  cbn [handle returned_by] in Hit', Hq. rewrite Hp in Hit', Hq.
  cbn [fst snd map app] in Hit', Hq.
  unfold PubSub.received. by rewrite Hit', Hq.
Qed.

(** C5.  The delivery the claim states does not happen in the process as
    the module sets it up: the subscription server is created with
    [apolloServer.schema], which is undefined, so every subscription start
    is answered with an error and the [subscribe] resolver is never called.
    Whatever the clients send from the start of the process on --
    mutations, queries, subscription starts -- no iterator is ever
    registered, and a published record is handed to no one. *)
Theorem client_subscription_is_never_established env cs d :
  (∀ w, ∃ e, subscriptionServer_start apolloServer_schema w = (StartError e, w))
  ∧ pubsub (serve_all env cs (boot d)) = []
  ∧ ∀ k, PubSub.received k (pubsub (serve_all env cs (boot d))) = [].
Proof.
  assert (pubsub (serve_all env cs (boot d)) = []) as Hreg.
  { unfold serve_all.
    assert (pubsub (boot d) = []) as H0 by done. revert H0.
    generalize (boot d).
    induction cs as [| c cs IH]; intros w Hw; simpl; [done |].
    by apply IH, serve_keeps_registry. }
  split; [by eexists |]. split; [done |].
  intros k. unfold PubSub.received. by rewrite Hreg.
Qed.

(** ** Failing writes *)

(** C6.  When the write of an uploaded file fails, the mutation is rejected
    with the error of the write stream, the GraphQL response carries that
    error and no data, and the write has been attempted once: one write
    stream was opened, on the path of the upload. *)
Theorem write_failure_rejects_mutation env amb s c u w e :
  write_error (write_outcome amb) = Some e →
  ∃ w', postMessage env amb s c (JThenable (Fulfilled u)) w = (Rejected e, w')
    ∧ execute_postMessage env amb s c (JThenable (Fulfilled u)) w
        = ({| data := None; errors := [e] |}, w')
    ∧ writeStreams w' =
        writeStreams w ++ [Path.join (uploadsDir env) (upload_filename u)].
Proof.
  intros He.
  destruct (postMessage_upload_failed env amb s c u w e He) as [d Hd].
  eexists. split; [exact Hd |]. unfold execute_postMessage. by rewrite Hd.
Qed.

Lemma write_failure_rejects_mutation_witness :
  write_error (write_outcome failing_amb)
    = Some "ENOSPC: no space left on device, write"
  ∧ ∃ w',
      postMessage sample_env failing_amb "Alice" None
        (JThenable (Fulfilled (sample_upload "a.txt"))) (boot ∅)
        = (Rejected "ENOSPC: no space left on device, write", w')
      ∧ execute_postMessage sample_env failing_amb "Alice" None
          (JThenable (Fulfilled (sample_upload "a.txt"))) (boot ∅)
          = ({| data := None;
                errors := ["ENOSPC: no space left on device, write"] |}, w')
      ∧ writeStreams w' =
          writeStreams (boot ∅) ++
            [Path.join (uploadsDir sample_env) (upload_filename (sample_upload "a.txt"))].
Proof.
  split; [reflexivity |].
  apply (write_failure_rejects_mutation sample_env failing_amb "Alice" None
           (sample_upload "a.txt") (boot ∅)).
  reflexivity.
Defined.

(** C9.  When the write of an uploaded file fails, the mutation appends
    nothing to the message array and publishes nothing: the array and every
    iterator of the topic are as before the call. *)
Theorem write_failure_leaves_store_and_topic env amb s c u w e :
  write_error (write_outcome amb) = Some e →
  let r := postMessage env amb s c (JThenable (Fulfilled u)) w in
  r.1 = Rejected e
  ∧ messages r.2 = messages w
  ∧ query_messages r.2 = query_messages w
  ∧ pubsub r.2 = pubsub w
  ∧ ∀ k, PubSub.received k (pubsub r.2) = PubSub.received k (pubsub w).
Proof.
  intros He r. subst r.
  destruct (postMessage_upload_failed env amb s c u w e He) as [d ->].
  done.
Qed.

Lemma write_failure_leaves_store_and_topic_witness :
  write_error (write_outcome failing_amb)
    = Some "ENOSPC: no space left on device, write"
  ∧ let r := postMessage sample_env failing_amb "Alice" None
               (JThenable (Fulfilled (sample_upload "a.txt"))) (boot ∅) in
    r.1 = Rejected "ENOSPC: no space left on device, write"
    ∧ messages r.2 = messages (boot ∅)
    ∧ query_messages r.2 = query_messages (boot ∅)
    ∧ pubsub r.2 = pubsub (boot ∅)
    ∧ ∀ k, PubSub.received k (pubsub r.2) = PubSub.received k (pubsub (boot ∅)).
Proof.
  split; [reflexivity |].
  apply (write_failure_leaves_store_and_topic sample_env failing_amb "Alice" None
           (sample_upload "a.txt") (boot ∅)).
  reflexivity.
Defined.

(** ** File arguments that are not promises *)

(** C10.  A file argument whose [then] is not a function (any value that is
    not promise-like, null or not) is ignored without an error: the
    mutation returns, the record it returns and stores has file null, no
    write stream is opened and the disk is unchanged. *)
Theorem non_thenable_file_is_ignored env amb s c f w :
  then_is_function f = false →
  ∃ m w', postMessage env amb s c f w = (Returned m, w')
    ∧ file m = None
    ∧ messages w' = messages w ++ [m]
    ∧ disk w' = disk w
    ∧ writeStreams w' = writeStreams w.
Proof.
  intros Hf.
  rewrite postMessage_without_upload by (rewrite Hf; apply andb_false_r).
  do 2 eexists. split; [reflexivity |]. done.
Qed.

Lemma non_thenable_file_is_ignored_witness :
  then_is_function (JString "a.txt") = false
  ∧ ∃ m w',
      postMessage sample_env (sample_amb 7) "Alice" None (JString "a.txt") (boot ∅)
        = (Returned m, w')
      ∧ file m = None
      ∧ messages w' = messages (boot ∅) ++ [m]
      ∧ disk w' = disk (boot ∅)
      ∧ writeStreams w' = writeStreams (boot ∅).
Proof.
  split; [reflexivity |].
  apply (non_thenable_file_is_ignored sample_env (sample_amb 7) "Alice" None
           (JString "a.txt") (boot ∅)).
  reflexivity.
Defined.

(** ** The data-model invariant *)

(** C8, as stated, fails: a call with null content and no file stores a
    record with neither. *)
Lemma empty_record_is_stored :
  let r := postMessage sample_env (sample_amb 7) "Alice" None JUndefined (boot ∅) in
  ∃ m, r.1 = Returned m ∧ query_messages r.2 = [m]
    ∧ content m = None ∧ file m = None ∧ ¬ has_body m.
Proof.
  eexists. repeat split.
  intros [[x Hx] | [x Hx]]; discriminate.
Qed.

(** C8, amended.  A record the mutation returns has the content of the call
    and a file descriptor exactly when the file argument was promise-like;
    so it has content and/or a file exactly when the call supplied content
    or a promise-like file, and the array keeps the invariant under every
    such call. *)
Theorem invariant_kept_by_calls_with_body env amb s c f w m w' :
  postMessage env amb s c f w = (Returned m, w') →
  content m = c
  ∧ (is_Some (file m) ↔ truthy f && then_is_function f = true)
  ∧ (has_body m ↔ is_Some c ∨ truthy f && then_is_function f = true)
  ∧ (Forall has_body (messages w) → has_body m → Forall has_body (messages w')).
Proof.
  intros Hp.
  assert (content m = c ∧ messages w' = messages w ++ [m]
          ∧ (is_Some (file m) ↔ truthy f && then_is_function f = true))
    as (Hc & Hm & Hfile).
  { destruct (truthy f && then_is_function f) eqn:Hg.
    - destruct f; try (rewrite andb_false_r in Hg; discriminate Hg);
        try discriminate Hg.
      destruct settles as [u | e]; [| discriminate Hp].
      destruct (write_error (write_outcome amb)) as [e |] eqn:Ho.
      + destruct (postMessage_upload_failed env amb s c u w e Ho) as [d Hd].
        congruence.
      + assert (write_outcome amb = Finish) as Hfin
          by (destruct (write_outcome amb); simplify_eq/=; done).
        rewrite (postMessage_upload_finished _ _ _ _ _ _ Hfin) in Hp.
        simplify_eq. simpl. split; [done |]. split; [done |].
        split; eauto.
    - rewrite (postMessage_without_upload _ _ _ _ _ _ Hg) in Hp.
      simplify_eq. simpl. split; [done |]. split; [done |].
      split; [intros [? ?]; discriminate | discriminate]. }
  split; [done |]. split; [done |]. split.
  - unfold has_body. rewrite Hc, Hfile. done.
  - intros Hall Hbody. rewrite Hm. apply Forall_app. split; [done |].
    by constructor.
Qed.

Lemma invariant_kept_by_calls_with_body_witness :
  postMessage sample_env (sample_amb 7) "Alice" (Some "hi") JUndefined (boot ∅)
    = (Returned (record_of (sample_amb 7) "Alice" (Some "hi") None),
       committed (record_of (sample_amb 7) "Alice" (Some "hi") None) (boot ∅))
  ∧ (content (record_of (sample_amb 7) "Alice" (Some "hi") None) = Some "hi"
     ∧ (is_Some (file (record_of (sample_amb 7) "Alice" (Some "hi") None))
        ↔ truthy JUndefined && then_is_function JUndefined = true)
     ∧ (has_body (record_of (sample_amb 7) "Alice" (Some "hi") None)
        ↔ is_Some (Some "hi") ∨ truthy JUndefined && then_is_function JUndefined = true)
     ∧ (Forall has_body (messages (boot ∅)) →
        has_body (record_of (sample_amb 7) "Alice" (Some "hi") None) →
        Forall has_body
          (messages (committed (record_of (sample_amb 7) "Alice" (Some "hi") None)
                       (boot ∅))))).
Proof.
  split; [reflexivity |].
  apply (invariant_kept_by_calls_with_body sample_env (sample_amb 7) "Alice"
           (Some "hi") JUndefined (boot ∅)).
  reflexivity.
Defined.

(** ** Strings and paths *)

Section StringFacts.

Lemma append_cons c r s : String c r +:+ s = String c (r +:+ s).
Proof. reflexivity. Qed.

Lemma append_nil_l s : "" +:+ s = s.
Proof. reflexivity. Qed.

Lemma append_assoc a b c : (a +:+ b) +:+ c = a +:+ b +:+ c.
Proof. induction a as [| x a IH]; [done |]. by rewrite !append_cons, IH. Qed.

Lemma append_nonempty_r a b : b ≠ "" → a +:+ b ≠ "".
Proof. destruct a; [done |]. by rewrite append_cons. Qed.

Lemma contains_char_append p a b :
  contains_char p (a +:+ b) = contains_char p a || contains_char p b.
Proof.
  induction a as [| x a IH]; [done |].
  rewrite append_cons. simpl. by rewrite IH, orb_assoc.
Qed.

(** What a plain character is not. *)
Lemma plain_char_ordinary c :
  plain_char c = true →
  Path.is_sep c = false ∧ Ascii.eqb c "\" = false ∧ Ascii.eqb c "%" = false
  ∧ Ascii.eqb c "?" = false ∧ Ascii.eqb c "#" = false ∧ Ascii.eqb zero c = false.
Proof.
  destruct c as [[] [] [] [] [] [] [] []]; vm_compute; intros H;
    try discriminate H; done.
Qed.

Lemma plain_no_sep s : all_chars plain_char s = true → contains_char Path.is_sep s = false.
Proof.
  induction s as [| c s IH]; [done |]. simpl.
  intros [Hc Hs]%andb_true_iff.
  destruct (plain_char_ordinary c Hc) as (-> & _). by rewrite IH.
Qed.

Lemma plain_no_nul s :
  all_chars plain_char s = true → contains_char (Ascii.eqb zero) s = false.
Proof.
  induction s as [| c s IH]; [done |]. cbn [contains_char all_chars].
  intros [Hc Hs]%andb_true_iff.
  destruct (plain_char_ordinary c Hc) as (_ & _ & _ & _ & _ & ->). by rewrite IH.
Qed.

Lemma plain_decode s : all_chars plain_char s = true → Http.decode s = Some s.
Proof.
  induction s as [| c s IH]; [done |]. simpl.
  intros [Hc Hs]%andb_true_iff.
  destruct (plain_char_ordinary c Hc) as (_ & _ & -> & _). by rewrite IH.
Qed.

Lemma plain_no_backslash s :
  all_chars plain_char s = true →
  map_chars (λ c, if Ascii.eqb c "\" then "/"%char else c) s = s.
Proof.
  induction s as [| c s IH]; [done |]. simpl.
  intros [Hc Hs]%andb_true_iff.
  destruct (plain_char_ordinary c Hc) as (_ & -> & _). by rewrite IH.
Qed.

Lemma plain_take_until s :
  all_chars plain_char s = true →
  take_until (λ c, Ascii.eqb c "?" || Ascii.eqb c "#") s = s.
Proof.
  induction s as [| c s IH]; [done |]. simpl.
  intros [Hc Hs]%andb_true_iff.
  destruct (plain_char_ordinary c Hc) as (_ & _ & _ & -> & -> & _). simpl.
  by rewrite IH.
Qed.

Lemma plain_name_chars s : plain_name s = true → all_chars plain_char s = true.
Proof. destruct s; [done |]. unfold plain_name. by intros [_ ?]%andb_true_iff. Qed.

Lemma plain_name_no_dot s : plain_name s = true → Http.starts_with_dot s = false.
Proof.
  destruct s; [done |]. unfold plain_name. simpl.
  intros [H _]%andb_true_iff. by apply negb_true_iff.
Qed.

Lemma plain_name_clean s : plain_name s = true → clean s = true.
Proof.
  intros Hs. pose proof (plain_no_sep s (plain_name_chars s Hs)) as Hsep.
  pose proof (plain_name_no_dot s Hs) as Hdot.
  unfold clean. rewrite Hsep.
  destruct s as [| c s]; [done |]. simpl in Hdot.
  destruct (Ascii.eqb_spec c "."); [done |].
  assert (String c s ≠ "." ∧ String c s ≠ "..") as [H1 H2] by (split; congruence).
  apply String.eqb_neq in H1, H2. by rewrite H1, H2.
Qed.

End StringFacts.

Section PathFacts.
Import Path.

Lemma clean_inv seg :
  clean seg = true →
  seg ≠ "" ∧ String.eqb seg "" = false ∧ String.eqb seg "." = false
  ∧ String.eqb seg ".." = false ∧ contains_char is_sep seg = false.
Proof.
  unfold clean. rewrite !andb_true_iff, !negb_true_iff.
  intros [[[H1 H2] H3] H4]. split; [by apply String.eqb_neq |]. done.
Qed.

Lemma segments_nonempty s : segments s ≠ [].
Proof. destruct s as [| c s]; [done |]. simpl. by repeat case_match. Qed.

Lemma segments_one s : contains_char is_sep s = false → segments s = [s].
Proof.
  induction s as [| c s IH]; [done |]. simpl.
  intros [Hc Hs]%orb_false_iff. rewrite Hc, IH; done.
Qed.

Lemma segments_append_sep a b :
  segments (a +:+ String "/" b) = segments a ++ segments b.
Proof.
  induction a as [| c a IH]; [done |].
  rewrite append_cons. simpl. rewrite IH.
  destruct (is_sep c); [done |].
  pose proof (segments_nonempty a). by destruct (segments a).
Qed.

Lemma segments_no_sep s :
  Forall (λ seg, contains_char is_sep seg = false) (segments s).
Proof.
  induction s as [| c s IH]; [by repeat constructor |]. simpl.
  destruct (is_sep c) eqn:Hc; [by constructor |].
  pose proof (segments_nonempty s).
  destruct (segments s) as [| hd tl]; [done |].
  apply Forall_cons in IH as [Hhd Htl]. constructor; [| done].
  simpl. by rewrite Hc, Hhd.
Qed.

Lemma trailingSeparator_append a b :
  b ≠ "" → trailingSeparator (a +:+ b) = trailingSeparator b.
Proof.
  intros Hb. induction a as [| c a IH]; [done |].
  rewrite append_cons. simpl.
  destruct (a +:+ b) eqn:Hab; [| done].
  by apply append_nonempty_r in Hab.
Qed.

Lemma trailingSeparator_no_sep s :
  contains_char is_sep s = false → trailingSeparator s = false.
Proof.
  induction s as [| c s IH]; [done |]. simpl.
  intros [Hc Hs]%orb_false_iff. destruct s; [done |]. by apply IH.
Qed.

Lemma concat_cons x y l :
  String.concat "/" (x :: y :: l) = x +:+ String "/" (String.concat "/" (y :: l)).
Proof. reflexivity. Qed.

Lemma concat_snoc l x :
  l ≠ [] → String.concat "/" (l ++ [x]) = String.concat "/" l +:+ String "/" x.
Proof.
  induction l as [| a l IH]; [done |]. intros _.
  destruct l as [| b l]; [done |].
  change ((a :: b :: l) ++ [x]) with (a :: b :: (l ++ [x])).
  rewrite !concat_cons.
  change (b :: l ++ [x]) with ((b :: l) ++ [x]).
  rewrite IH by done. by rewrite append_assoc.
Qed.

Lemma segments_concat l :
  l ≠ [] → Forall (λ seg, clean seg = true) l → segments (String.concat "/" l) = l.
Proof.
  induction l as [| a l IH]; [done |]. intros _ [Ha Hl]%Forall_cons.
  apply clean_inv in Ha as (_ & _ & _ & _ & Ha).
  destruct l as [| b l]; [by apply segments_one |].
  rewrite concat_cons, segments_append_sep, segments_one, IH by done. done.
Qed.

Lemma concat_nonempty l :
  l ≠ [] → Forall (λ seg, clean seg = true) l → String.concat "/" l ≠ "".
Proof.
  destruct l as [| a l]; [done |]. intros _ [Ha _]%Forall_cons.
  apply clean_inv in Ha as (Ha & _).
  destruct l; [done |]. rewrite concat_cons. by destruct a.
Qed.

Lemma trailingSeparator_concat l :
  l ≠ [] → Forall (λ seg, clean seg = true) l →
  trailingSeparator (String.concat "/" l) = false.
Proof.
  induction l as [| a l IH]; [done |]. intros _ [Ha Hl]%Forall_cons.
  destruct l as [| b l].
  - apply clean_inv in Ha as (_ & _ & _ & _ & Ha).
    by apply trailingSeparator_no_sep.
  - rewrite concat_cons.
    change (String "/" ?s) with ("/" +:+ s).
    rewrite <- append_assoc, trailingSeparator_append; [by apply IH |].
    by apply concat_nonempty.
Qed.

Lemma norm_step_clean b stack seg :
  clean seg = true → norm_step b stack seg = seg :: stack.
Proof.
  intros (_ & H1 & H2 & H3 & _)%clean_inv. unfold norm_step.
  by rewrite H1, H2, H3.
Qed.

Lemma fold_norm_clean b l stack :
  Forall (λ seg, clean seg = true) l →
  fold_left (norm_step b) l stack = rev l ++ stack.
Proof.
  revert stack. induction l as [| a l IH]; intros stack; [done |].
  intros [Ha Hl]%Forall_cons. simpl.
  rewrite norm_step_clean, IH by done. by rewrite <- app_assoc.
Qed.

Lemma norm_step_keeps_clean stack seg :
  Forall (λ seg, clean seg = true) stack →
  contains_char is_sep seg = false →
  Forall (λ seg, clean seg = true) (norm_step false stack seg).
Proof.
  intros Hst Hseg. unfold norm_step.
  destruct (String.eqb seg "") eqn:H1; [done |].
  destruct (String.eqb seg ".") eqn:H2; [done |]. simpl.
  destruct (String.eqb seg "..") eqn:H3.
  - destruct stack as [| top below]; [done |].
    destruct (String.eqb top ".."); [done |].
    by apply Forall_cons in Hst as [? ?].
  - constructor; [| done]. unfold clean. by rewrite H1, H2, H3, Hseg.
Qed.

Lemma fold_norm_keeps_clean l stack :
  Forall (λ seg, clean seg = true) stack →
  Forall (λ seg, contains_char is_sep seg = false) l →
  Forall (λ seg, clean seg = true) (fold_left (norm_step false) l stack).
Proof.
  revert stack. induction l as [| a l IH]; intros stack Hst Hl; [done |].
  apply Forall_cons in Hl as [Ha Hl]. simpl.
  apply IH; [| done]. by apply norm_step_keeps_clean.
Qed.

End PathFacts.

Section CanonicalPaths.
Import Path.

Lemma normalizeString_canonical path l :
  canonical path l → normalizeString path false = String.concat "/" l.
Proof.
  intros (Hne & Hl & ->). unfold normalizeString.
  change ("/" +:+ ?s) with ("" +:+ String "/" s).
  rewrite segments_append_sep, segments_concat by done.
  cbn [segments app fold_left]. unfold norm_step at 2. cbn [String.eqb orb].
  by rewrite fold_norm_clean, app_nil_r, rev_involutive.
Qed.

Lemma canonical_absolute path l : canonical path l → isAbsolute path = true.
Proof. by intros (_ & _ & ->). Qed.

Lemma canonical_no_trailing path l :
  canonical path l → trailingSeparator path = false.
Proof.
  intros (Hne & Hl & ->).
  rewrite trailingSeparator_append by by apply concat_nonempty.
  by apply trailingSeparator_concat.
Qed.

(** Normalization leaves a path in normal form alone. *)
Lemma normalize_canonical path l : canonical path l → normalize path = path.
Proof.
  intros Hc. pose proof Hc as (Hne & Hl & Hp). unfold normalize.
  cbv zeta. rewrite (canonical_absolute _ _ Hc). cbn [negb].
  rewrite (normalizeString_canonical _ _ Hc), (canonical_no_trailing _ _ Hc).
  assert (String.eqb path "" = false) as -> by (apply String.eqb_neq; by subst).
  assert (String.eqb (String.concat "/" l) "" = false) as ->
    by (apply String.eqb_neq; by apply concat_nonempty).
  by subst.
Qed.

Lemma resolve_canonical cwd path l : canonical path l → resolve cwd path = path.
Proof.
  intros Hc. unfold resolve.
  rewrite (canonical_absolute _ _ Hc), (normalizeString_canonical _ _ Hc).
  by destruct Hc as (_ & _ & ->).
Qed.

Lemma canonical_snoc path l seg :
  canonical path l → clean seg = true →
  canonical (path +:+ "/" +:+ seg) (l ++ [seg]).
Proof.
  intros (Hne & Hl & ->) Hseg. split; [by destruct l |]. split.
  - apply Forall_app. by split; [| constructor].
  - rewrite concat_snoc by done. by rewrite !append_assoc.
Qed.

(** Joining a clean segment to a path in normal form appends it. *)
Lemma join_canonical path l seg :
  canonical path l → clean seg = true →
  join path seg = path +:+ "/" +:+ seg.
Proof.
  intros Hc Hseg. unfold join.
  assert (String.eqb path "" = false) as ->
    by (apply String.eqb_neq; destruct Hc as (_ & _ & ->); done).
  apply clean_inv in Hseg as Hinv. destruct Hinv as (_ & -> & _).
  by apply (normalize_canonical _ (l ++ [seg])), canonical_snoc.
Qed.

Lemma dirname_absolute path : isAbsolute path = true → isAbsolute (dirname path) = true.
Proof.
  destruct path as [| c rest]; [done |]. simpl. intros Hc. rewrite Hc.
  destruct (drop_while _ _); [done |]. simpl.
  by destruct (Nat.eqb _ 0).
Qed.

(** Joining a clean segment to any absolute path gives a path in normal
    form that ends in the segment. *)
Lemma join_absolute_canonical dir seg :
  isAbsolute dir = true → clean seg = true →
  ∃ l, canonical (join dir seg) (l ++ [seg]).
Proof.
  intros Hdir Hseg. pose proof (clean_inv _ Hseg) as (Hne & Hseg0 & _ & _ & Hsep).
  unfold join.
  assert (String.eqb dir "" = false) as -> by (by destruct dir).
  rewrite Hseg0. unfold normalize. cbv zeta.
  set (x := dir +:+ "/" +:+ seg).
  assert (String.eqb x "" = false) as -> by (by destruct dir).
  assert (isAbsolute x = true) as -> by (by destruct dir).
  assert (trailingSeparator x = false) as ->.
  { subst x. rewrite trailingSeparator_append by done.
    change ("/" +:+ seg) with (String "/" seg). simpl.
    destruct seg; [done |]. by apply trailingSeparator_no_sep. }
  unfold normalizeString. subst x.
  change ("/" +:+ seg) with (String "/" seg).
  rewrite segments_append_sep, (segments_one seg), fold_left_app by done.
  cbn [fold_left negb]. rewrite norm_step_clean by done.
  set (st := fold_left (norm_step false) (segments dir) []).
  assert (Forall (λ seg, clean seg = true) st) as Hst
    by (apply fold_norm_keeps_clean; [done | apply segments_no_sep]).
  assert (Forall (λ seg, clean seg = true) (rev st ++ [seg])) as Hall.
  { apply Forall_app. split; [| by constructor].
    apply List.Forall_rev. done. }
  cbn [rev].
  assert (String.eqb (String.concat "/" (rev st ++ [seg])) "" = false) as ->.
  { apply String.eqb_neq, concat_nonempty; [| done]. by destruct (rev st). }
  exists (rev st). split; [by destruct (rev st) |]. done.
Qed.

Lemma uploadsDir_canonical env :
  isAbsolute (module_filename env) = true →
  ∃ l, canonical (uploadsDir env) l.
Proof.
  intros Habs. unfold uploadsDir, __dirname.
  destruct (join_absolute_canonical (dirname (module_filename env)) "uploads")
    as [l Hl]; [by apply dirname_absolute | done |]. eauto.
Qed.

End CanonicalPaths.

(** ** Serving an uploaded file *)

Section StaticFacts.
Import Path.

Lemma normalize_below_root seg :
  clean seg = true → normalize ("./" +:+ "/" +:+ seg) = seg.
Proof.
  intros Hseg. pose proof (clean_inv _ Hseg) as (Hne & Hseg0 & _ & _ & Hsep).
  unfold normalize. cbv zeta.
  change ("./" +:+ "/" +:+ seg) with ("." +:+ String "/" ("" +:+ String "/" seg)).
  assert (trailingSeparator ("." +:+ String "/" ("" +:+ String "/" seg)) = false) as ->.
  { simpl. destruct seg; [done |]. by apply trailingSeparator_no_sep. }
  unfold normalizeString.
  rewrite !segments_append_sep, (segments_one seg) by done.
  cbn. rewrite norm_step_clean by done. cbn. by rewrite Hseg0.
Qed.

Lemma up_path_plain f : plain_name f = true → Http.up_path f = false.
Proof.
  intros Hf. pose proof (plain_name_chars _ Hf) as Hchars.
  pose proof (clean_inv _ (plain_name_clean _ Hf)) as (_ & _ & _ & Hup & Hsep).
  unfold Http.up_path.
  rewrite plain_no_backslash, segments_one by done.
  cbn [existsb]. by rewrite orb_false_r, String.eqb_sym, Hup.
Qed.

Lemma serve_static_plain cwd root l d f body :
  canonical root l → plain_name f = true →
  d !! (root +:+ "/" +:+ f) = Some body →
  Http.serve_static cwd root d ("/" +:+ f) = Some body.
Proof.
  intros Hroot Hf Hd.
  pose proof (plain_name_chars _ Hf) as Hchars.
  pose proof (plain_name_clean _ Hf) as Hclean.
  pose proof (clean_inv _ Hclean) as (Hne & _ & _ & _ & Hsep).
  unfold Http.serve_static.
  change ("/" +:+ f) with (String "/" f).
  cbn [Http.decode]. rewrite plain_decode by done.
  change (Ascii.eqb "/" "%") with false. cbn [fmap option_fmap option_map].
  cbn [contains_char]. rewrite plain_no_nul by done.
  change (Ascii.eqb zero "/") with false. cbn [orb].
  change (String.eqb (String "/" f) "") with false. cbv iota.
  change ("./" +:+ String "/" f) with ("./" +:+ "/" +:+ f).
  rewrite normalize_below_root, up_path_plain by done.
  rewrite segments_one by done.
  rewrite (resolve_canonical _ _ _ Hroot), (join_canonical _ _ _ Hroot Hclean).
  rewrite (normalize_canonical _ _ (canonical_snoc _ _ _ Hroot Hclean)).
  cbn [List.last]. rewrite (plain_name_no_dot _ Hf), andb_false_r.
  assert (trailingSeparator (String "/" f) = false) as ->
    by (simpl; destruct f; [done |]; by apply trailingSeparator_no_sep).
  done.
Qed.

Lemma request_path_upload f :
  all_chars plain_char f = true →
  Http.request_path PORT ("http://localhost:4000/uploads/" +:+ f)
    = Some ("/uploads/" +:+ f).
Proof.
  intros Hf. unfold Http.request_path.
  change (Http.origin PORT) with "http://localhost:4000".
  rewrite !append_cons, append_nil_l. cbn.
  by rewrite plain_take_until.
Qed.

(** A GET of the URL the mutation builds for a plain name serves the file
    of that name in the uploads directory. *)
Lemma get_upload_url cwd root l d f body :
  canonical root l → plain_name f = true →
  d !! (root +:+ "/" +:+ f) = Some body →
  Http.get PORT cwd root d ("http://localhost:4000/uploads/" +:+ f)
    = Http.Ok200 body.
Proof.
  intros Hroot Hf Hd. unfold Http.get.
  rewrite request_path_upload by by apply plain_name_chars.
  rewrite !append_cons, append_nil_l.
  change (String.eqb (String "/" (String "u" ?s)) "/") with false. cbv iota.
  change (Http.below_mount "/uploads" ?s) with (Some (String "/" f)).
  change (String "/" f) with ("/" +:+ f). cbv beta iota.
  by rewrite (serve_static_plain _ _ _ _ _ _ Hroot Hf Hd).
Qed.

End StaticFacts.

(** C4, as stated, fails: the URL is built from the file name as it is, so
    for an upload named [a#b.txt] the bytes are on disk under that name but
    a GET of the returned URL asks for [/uploads/a] and is answered 404. *)
Lemma upload_url_with_fragment_is_not_served :
  let u := sample_upload "a#b.txt" in
  let r := postMessage sample_env (sample_amb 7) "Alice" None
             (JThenable (Fulfilled u)) (boot ∅) in
  ∃ m fd, r.1 = Returned m ∧ file m = Some fd
    ∧ url fd = "http://localhost:4000/uploads/a#b.txt"
    ∧ disk r.2 !! "/srv/app/backend/uploads/a#b.txt" = Some (createReadStream u)
    ∧ http_get sample_env r.2 (url fd) = Http.NotFound404
    ∧ http_get sample_env r.2 (url fd) ≠ Http.Ok200 (createReadStream u).
Proof.
  do 2 eexists. split; [reflexivity |]. split; [reflexivity |].
  split; [reflexivity |]. split; [vm_compute; reflexivity |].
  assert (http_get sample_env
            (postMessage sample_env (sample_amb 7) "Alice" None
               (JThenable (Fulfilled (sample_upload "a#b.txt"))) (boot ∅)).2
            "http://localhost:4000/uploads/a#b.txt" = Http.NotFound404) as H
    by (vm_compute; reflexivity).
  split; [exact H |]. intros Hserved.
  pose proof (eq_trans (eq_sym H) Hserved) as Habsurd. discriminate Habsurd.
Qed.

(** A file name is not confined to the uploads directory either: joined to
    it, [../index.js] names the server module itself. *)
Example upload_can_leave_the_directory :
  Path.join (uploadsDir sample_env) "../index.js" = module_filename sample_env.
Proof. reflexivity. Qed.

(** C4, amended.  For an upload with a plain file name (ASCII letters,
    digits, [.], [-], [_], not starting with a dot) whose write finishes, in
    a process whose module path is absolute: the mutation returns a record
    with a file descriptor, the bytes of the stream are on disk in the
    uploads directory under the original file name, and a GET of the URL in
    the descriptor returns exactly those bytes. *)
Theorem plain_upload_round_trip env amb s c u w :
  Path.isAbsolute (module_filename env) = true →
  plain_name (upload_filename u) = true →
  write_outcome amb = Finish →
  ∃ m fd w',
    postMessage env amb s c (JThenable (Fulfilled u)) w = (Returned m, w')
    ∧ file m = Some fd
    ∧ url fd = "http://localhost:4000/uploads/" +:+ upload_filename u
    ∧ disk w' !! (uploadsDir env +:+ "/" +:+ upload_filename u)
        = Some (createReadStream u)
    ∧ http_get env w' (url fd) = Http.Ok200 (createReadStream u).
Proof.
  intros Habs Hname Hfin.
  destruct (uploadsDir_canonical env Habs) as [l Hl].
  rewrite (postMessage_upload_finished _ _ _ _ _ _ Hfin).
  do 3 eexists. split; [reflexivity |]. split; [reflexivity |].
  split; [reflexivity |].
  assert (<[Path.join (uploadsDir env) (upload_filename u) := createReadStream u]>
            (disk w) !! (uploadsDir env +:+ "/" +:+ upload_filename u)
          = Some (createReadStream u)) as Hd.
  { rewrite (join_canonical _ _ _ Hl (plain_name_clean _ Hname)).
    apply lookup_insert_eq. }
  split; [exact Hd |].
  unfold http_get. cbn [disk committed url descriptor_of record_of file].
  by apply (get_upload_url _ _ l).
Qed.

Lemma plain_upload_round_trip_witness :
  Path.isAbsolute (module_filename sample_env) = true
  ∧ plain_name (upload_filename (sample_upload "a.txt")) = true
  ∧ write_outcome (sample_amb 7) = Finish
  ∧ ∃ m fd w',
      postMessage sample_env (sample_amb 7) "Alice" None
        (JThenable (Fulfilled (sample_upload "a.txt"))) (boot ∅) = (Returned m, w')
      ∧ file m = Some fd
      ∧ url fd = "http://localhost:4000/uploads/" +:+ upload_filename (sample_upload "a.txt")
      ∧ disk w' !! (uploadsDir sample_env +:+ "/" +:+ upload_filename (sample_upload "a.txt"))
          = Some (createReadStream (sample_upload "a.txt"))
      ∧ http_get sample_env w' (url fd)
          = Http.Ok200 (createReadStream (sample_upload "a.txt")).
Proof.
  split; [reflexivity |]. split; [reflexivity |]. split; [reflexivity |].
  apply (plain_upload_round_trip sample_env (sample_amb 7) "Alice" None
           (sample_upload "a.txt") (boot ∅)); reflexivity.
Defined.

(** ** Configuration *)

(** C7, as stated, fails: the uploads directory is the one next to the
    server module; in a process started elsewhere it is not the [uploads]
    directory of the working directory, and it does not move with the
    working directory. *)
Lemma uploads_directory_is_not_under_cwd :
  uploadsDir sample_env = "/srv/app/backend/uploads"
  ∧ uploadsDir sample_env ≠ Path.resolve (process_cwd sample_env) "uploads"
  ∧ uploadsDir sample_env ≠ Path.join (process_cwd sample_env) "uploads"
  ∧ uploadsDir {| module_filename := module_filename sample_env;
                  process_cwd := "/tmp" |} = uploadsDir sample_env.
Proof. repeat split; vm_compute; discriminate. Qed.

(** C7, amended.  The port is 4000, so the process answers at
    [http://localhost:4000]; the uploads directory is [uploads] joined to
    the directory of the server module, whatever the working directory, and
    is an absolute path when the module path is; the URL of every file
    descriptor the mutation returns is [http://localhost:4000/uploads/]
    followed by the file name. *)
Theorem fixed_configuration env env' amb s c f w m w' :
  postMessage env amb s c f w = (Returned m, w') →
  PORT = 4000
  ∧ http_get env w' "http://localhost:4000/"
      = Http.Ok200 (list_byte_of_string Http.liveness)
  ∧ uploadsDir env = Path.join (Path.dirname (module_filename env)) "uploads"
  ∧ (module_filename env' = module_filename env → uploadsDir env' = uploadsDir env)
  ∧ (Path.isAbsolute (module_filename env) = true →
     Path.isAbsolute (uploadsDir env) = true)
  ∧ (∀ fd, file m = Some fd →
     url fd = "http://localhost:4000/uploads/" +:+ filename fd).
Proof.
  intros Hp. split; [done |]. split; [reflexivity |]. split; [done |]. split.
  { unfold uploadsDir, __dirname. by intros ->. }
  split.
  { intros Habs. destruct (uploadsDir_canonical env Habs) as [l Hl].
    by apply (canonical_absolute _ l). }
  intros fd Hfd.
  destruct (truthy f && then_is_function f) eqn:Hg.
  - destruct f; try (rewrite andb_false_r in Hg; discriminate Hg);
      try discriminate Hg.
    destruct settles as [u | e]; [| discriminate Hp].
    destruct (write_error (write_outcome amb)) as [e |] eqn:Ho.
    + destruct (postMessage_upload_failed env amb s c u w e Ho) as [d Hd].
      congruence.
    + assert (write_outcome amb = Finish) as Hfin
        by (destruct (write_outcome amb); simplify_eq/=; done).
      rewrite (postMessage_upload_finished _ _ _ _ _ _ Hfin) in Hp.
      simplify_eq. simpl in Hfd. by simplify_eq.
  - rewrite (postMessage_without_upload _ _ _ _ _ _ Hg) in Hp.
    by simplify_eq.
Qed.

Lemma fixed_configuration_witness :
  postMessage sample_env (sample_amb 7) "Alice" None
    (JThenable (Fulfilled (sample_upload "a.txt"))) (boot ∅)
  = (Returned (record_of (sample_amb 7) "Alice" None
                 (Some (descriptor_of (sample_upload "a.txt")))),
     (postMessage sample_env (sample_amb 7) "Alice" None
        (JThenable (Fulfilled (sample_upload "a.txt"))) (boot ∅)).2)
  ∧ (PORT = 4000
     ∧ http_get sample_env
         (postMessage sample_env (sample_amb 7) "Alice" None
            (JThenable (Fulfilled (sample_upload "a.txt"))) (boot ∅)).2
         "http://localhost:4000/"
         = Http.Ok200 (list_byte_of_string Http.liveness)
     ∧ uploadsDir sample_env
         = Path.join (Path.dirname (module_filename sample_env)) "uploads"
     ∧ (module_filename sample_env = module_filename sample_env →
        uploadsDir sample_env = uploadsDir sample_env)
     ∧ (Path.isAbsolute (module_filename sample_env) = true →
        Path.isAbsolute (uploadsDir sample_env) = true)
     ∧ (∀ fd,
          file (record_of (sample_amb 7) "Alice" None
                  (Some (descriptor_of (sample_upload "a.txt")))) = Some fd →
          url fd = "http://localhost:4000/uploads/" +:+ filename fd)).
Proof.
  split; [reflexivity |].
  apply (fixed_configuration sample_env sample_env (sample_amb 7) "Alice" None
           (JThenable (Fulfilled (sample_upload "a.txt"))) (boot ∅) _
           (postMessage sample_env (sample_amb 7) "Alice" None
              (JThenable (Fulfilled (sample_upload "a.txt"))) (boot ∅)).2).
  reflexivity.
Defined.

(** * Further properties of the backend *)

(** ** What a mutation does to the disk *)

Lemma postMessage_disk env amb s c f w :
  disk (postMessage env amb s c f w).2 =
    match f with
    | JThenable (Fulfilled u) =>
        let filepath := Path.join (uploadsDir env) (upload_filename u) in
        match write_outcome amb with
        | Finish => <[filepath := createReadStream u]> (disk w)
        | OpenError _ => disk w
        | WriteError _ n => <[filepath := take n (createReadStream u)]> (disk w)
        end
    | _ => disk w
    end.
Proof.
  destruct f as [| | b | n | x | | [u | e]];
    try (rewrite postMessage_without_upload
           by (simpl; rewrite ?andb_false_r; reflexivity); reflexivity).
  - run_resolver. by destruct (write_outcome amb).
  - reflexivity.
Qed.

Lemma postMessage_keeps_files env amb s c f w p :
  is_Some (disk w !! p) → is_Some (disk (postMessage env amb s c f w).2 !! p).
Proof.
  intros Hp. rewrite postMessage_disk.
  destruct f as [| | | | | | [u | e]]; try done.
  cbv zeta. destruct (write_outcome amb); try done;
    rewrite lookup_insert; by case_decide.
Qed.

Lemma handle_keeps_files env w r p :
  is_Some (disk w !! p) → is_Some (disk (handle env w r) !! p).
Proof.
  destruct r as [amb s c f | | | k0]; simpl; try done.
  apply postMessage_keeps_files.
Qed.

Lemma run_keeps_files env rs w p :
  is_Some (disk w !! p) → is_Some (disk (run env rs w) !! p).
Proof.
  revert w. unfold run. induction rs as [| r rs IH]; intros w Hp; simpl; [done |].
  by apply IH, handle_keeps_files.
Qed.

(** X1.  The message array is append-only: through any run of requests a
    record keeps the index it has, and the array never gets shorter. *)
Theorem store_is_append_only env rs w i m :
  query_messages w !! i = Some m →
  query_messages (run env rs w) !! i = Some m
  ∧ (length (query_messages w) ≤ length (query_messages (run env rs w)))%nat.
Proof.
  unfold query_messages. intros Hi. rewrite run_messages. split.
  - by apply lookup_app_l_Some.
  - rewrite length_app. lia.
Qed.

Lemma store_is_append_only_witness :
  query_messages (run sample_env [PostMessage (sample_amb 7) "Alice" (Some "hi") JUndefined]
                    (boot ∅)) !! 0%nat
    = Some (record_of (sample_amb 7) "Alice" (Some "hi") None)
  ∧ (query_messages
       (run sample_env [Subscribe; PostMessage (sample_amb 9) "Bob" None JNull]
          (run sample_env [PostMessage (sample_amb 7) "Alice" (Some "hi") JUndefined]
             (boot ∅))) !! 0%nat
       = Some (record_of (sample_amb 7) "Alice" (Some "hi") None)
     ∧ (length (query_messages
                  (run sample_env
                     [PostMessage (sample_amb 7) "Alice" (Some "hi") JUndefined]
                     (boot ∅)))
        ≤ length (query_messages
                    (run sample_env [Subscribe; PostMessage (sample_amb 9) "Bob" None JNull]
                       (run sample_env
                          [PostMessage (sample_amb 7) "Alice" (Some "hi") JUndefined]
                          (boot ∅)))))%nat).
Proof.
  split; [reflexivity |].
  apply (store_is_append_only sample_env
           [Subscribe; PostMessage (sample_amb 9) "Bob" None JNull]
           (run sample_env [PostMessage (sample_amb 7) "Alice" (Some "hi") JUndefined]
              (boot ∅)) 0%nat).
  reflexivity.
Defined.

(** X2.  The mutation is rejected exactly when the awaited upload is
    rejected or the write of an upload fails; a call without a promise-like
    file never fails.  When the awaited upload itself is rejected, the
    response carries its reason and nothing at all has changed: no write
    stream was opened. *)
Theorem mutation_rejects_exactly_on_upload_failure env amb s c f w :
  ((∃ e, (postMessage env amb s c f w).1 = Rejected e) ↔ resolves amb f = false)
  ∧ (then_is_function f = false → resolves amb f = true)
  ∧ ∀ e, execute_postMessage env amb s c (JThenable (RejectedWith e)) w
         = ({| data := None; errors := [e] |}, w).
Proof.
  split; [| split; [by destruct f | done]].
  destruct (resolves amb f) eqn:Hr.
  - destruct (postMessage_resolves env amb s c f w Hr) as (m & w' & -> & _).
    split; [intros [e He]; discriminate He | discriminate].
  - split; [done |]. intros _.
    destruct f as [| | | | | | [u | e]]; try discriminate Hr.
    + simpl in Hr.
      destruct (write_error (write_outcome amb)) as [e |] eqn:Ho.
      * destruct (postMessage_upload_failed env amb s c u w e Ho) as [d ->]. eauto.
      * destruct (write_outcome amb); simplify_eq/=.
    + exists e. reflexivity.
Qed.

Lemma mutation_rejects_exactly_on_upload_failure_witness :
  ((∃ e, (postMessage sample_env failing_amb "Alice" None
            (JThenable (Fulfilled (sample_upload "a.txt"))) (boot ∅)).1 = Rejected e)
   ↔ resolves failing_amb (JThenable (Fulfilled (sample_upload "a.txt"))) = false)
  ∧ (then_is_function (JThenable (Fulfilled (sample_upload "a.txt"))) = false →
     resolves failing_amb (JThenable (Fulfilled (sample_upload "a.txt"))) = true)
  ∧ ∀ e, execute_postMessage sample_env failing_amb "Alice" None
           (JThenable (RejectedWith e)) (boot ∅)
         = ({| data := None; errors := [e] |}, boot ∅).
Proof.
  apply (mutation_rejects_exactly_on_upload_failure sample_env failing_amb "Alice"
           None (JThenable (Fulfilled (sample_upload "a.txt"))) (boot ∅)).
Defined.

(** X3.  A mutation changes at most one file: every path other than the
    one its upload is written to holds after the call what it held
    before. *)
Theorem mutation_leaves_other_files env amb s c f w p :
  (∀ u, f = JThenable (Fulfilled u) →
        p ≠ Path.join (uploadsDir env) (upload_filename u)) →
  disk (postMessage env amb s c f w).2 !! p = disk w !! p.
Proof.
  intros Hp. rewrite postMessage_disk.
  destruct f as [| | | | | | [u | e]]; try done.
  specialize (Hp u eq_refl). cbv zeta.
  destruct (write_outcome amb); try done; by rewrite lookup_insert_ne.
Qed.

Lemma mutation_leaves_other_files_witness :
  (∀ u, JThenable (Fulfilled (sample_upload "a.txt")) = JThenable (Fulfilled u) →
        "/etc/passwd" ≠ Path.join (uploadsDir sample_env) (upload_filename u))
  ∧ disk (postMessage sample_env (sample_amb 7) "Alice" None
            (JThenable (Fulfilled (sample_upload "a.txt"))) (boot ∅)).2 !! "/etc/passwd"
    = disk (boot ∅) !! "/etc/passwd".
Proof.
  assert (∀ u, JThenable (Fulfilled (sample_upload "a.txt")) = JThenable (Fulfilled u) →
               "/etc/passwd" ≠ Path.join (uploadsDir sample_env) (upload_filename u))
    as Hother.
  { intros u Hu. injection Hu as <-. vm_compute. discriminate. }
  split; [exact Hother |].
  apply (mutation_leaves_other_files sample_env (sample_amb 7) "Alice" None
           (JThenable (Fulfilled (sample_upload "a.txt"))) (boot ∅) "/etc/passwd").
  exact Hother.
Defined.

(** X4.  No request deletes a file: a path that holds a file holds one after
    any run of requests. *)
Theorem files_are_never_deleted env rs w p :
  is_Some (disk w !! p) → is_Some (disk (run env rs w) !! p).
Proof. apply run_keeps_files. Qed.

Lemma files_are_never_deleted_witness :
  is_Some (disk (boot {["/srv/app/backend/uploads/a.txt" := ["h"]%byte]})
             !! "/srv/app/backend/uploads/a.txt")
  ∧ is_Some (disk (run sample_env
                     [PostMessage failing_amb "Alice" None
                        (JThenable (Fulfilled (sample_upload "a.txt")))]
                     (boot {["/srv/app/backend/uploads/a.txt" := ["h"]%byte]}))
               !! "/srv/app/backend/uploads/a.txt").
Proof.
  assert (is_Some (disk (boot {["/srv/app/backend/uploads/a.txt" := ["h"]%byte]})
                     !! "/srv/app/backend/uploads/a.txt")) as H
    by (eexists; vm_compute; reflexivity).
  split; [exact H |].
  apply (files_are_never_deleted sample_env
           [PostMessage failing_amb "Alice" None
              (JThenable (Fulfilled (sample_upload "a.txt")))]
           (boot {["/srv/app/backend/uploads/a.txt" := ["h"]%byte]})).
  exact H.
Defined.

(** ** The shape of what a mutation returns *)

Lemma postMessage_returned env amb s c f w m w' :
  postMessage env amb s c f w = (Returned m, w') →
  (truthy f && then_is_function f = false
   ∧ m = record_of amb s c None ∧ w' = committed m w)
  ∨ (∃ u, f = JThenable (Fulfilled u) ∧ write_outcome amb = Finish
     ∧ m = record_of amb s c (Some (descriptor_of u))
     ∧ w' = committed m
         {| messages := messages w;
            disk := <[Path.join (uploadsDir env) (upload_filename u) :=
                        createReadStream u]> (disk w);
            pubsub := pubsub w;
            writeStreams := writeStreams w ++
              [Path.join (uploadsDir env) (upload_filename u)] |}).
Proof.
  intros Hp. destruct (truthy f && then_is_function f) eqn:Hg.
  - right. destruct f; try (rewrite andb_false_r in Hg; discriminate Hg);
      try discriminate Hg.
    destruct settles as [u | e]; [| discriminate Hp].
    exists u. destruct (write_error (write_outcome amb)) as [e |] eqn:Ho.
    + destruct (postMessage_upload_failed env amb s c u w e Ho) as [d Hd].
      congruence.
    + assert (write_outcome amb = Finish) as Hfin
        by (destruct (write_outcome amb); simplify_eq/=; done).
      rewrite (postMessage_upload_finished _ _ _ _ _ _ Hfin) in Hp.
      by simplify_eq.
  - left. rewrite (postMessage_without_upload _ _ _ _ _ _ Hg) in Hp.
    by simplify_eq.
Qed.

Lemma returned_well_formed env amb s c f w m w' :
  postMessage env amb s c f w = (Returned m, w') → well_formed m.
Proof.
  intros [(_ & -> & _) | (u & _ & _ & -> & _)]%postMessage_returned;
    (split; [apply v4_length |]); simpl; intros fd Hfd; by simplify_eq.
Qed.

Lemma returned_by_well_formed env w r : Forall well_formed (returned_by env w r).
Proof.
  destruct r as [amb s c f | | | k0]; simpl; try done.
  destruct (postMessage env amb s c f w) as [[m | e] w'] eqn:Hp; simpl; [| done].
  constructor; [| done]. by eapply returned_well_formed.
Qed.

Lemma posted_well_formed env rs w : Forall well_formed (posted env rs w).
Proof.
  revert w. induction rs as [| r rs IH]; intros w; simpl; [done |].
  apply Forall_app. split; [apply returned_by_well_formed | apply IH].
Qed.

(** X5.  Every record the store gains is well formed: through any run of
    requests the records keep 36-character identifiers and URLs made of
    [http://localhost:4000/uploads/] and the file name. *)
Theorem store_stays_well_formed env rs w :
  Forall well_formed (query_messages w) →
  Forall well_formed (query_messages (run env rs w)).
Proof.
  unfold query_messages. intros Hw. rewrite run_messages.
  apply Forall_app. split; [done | apply posted_well_formed].
Qed.

Lemma store_stays_well_formed_witness :
  Forall well_formed (query_messages (boot ∅))
  ∧ Forall well_formed
      (query_messages
         (run sample_env
            [PostMessage (sample_amb 7) "Alice" None
               (JThenable (Fulfilled (sample_upload "a#b.txt")));
             PostMessage (sample_amb 9) "Bob" (Some "hi") JUndefined]
            (boot ∅))).
Proof.
  assert (Forall well_formed (query_messages (boot ∅))) as H by constructor.
  split; [exact H |].
  apply (store_stays_well_formed sample_env
           [PostMessage (sample_amb 7) "Alice" None
              (JThenable (Fulfilled (sample_upload "a#b.txt")));
            PostMessage (sample_amb 9) "Bob" (Some "hi") JUndefined]
           (boot ∅)).
  exact H.
Defined.

(** ** Identifiers across a run *)

Lemma returned_by_ids env w r :
  (id <$> returned_by env w r) `sublist_of`
    (Uuid.v4 <$> draws [r]).
Proof.
  destruct r as [amb s c f | | | k0]; simpl;
    [| apply sublist_nil | apply sublist_nil | apply sublist_nil].
  destruct (postMessage_cases env amb s c f w)
    as [(m & d & l & -> & Hid & _) | (e & d & l & ->)]; simpl.
  - rewrite Hid. apply sublist_skip, sublist_nil.
  - apply sublist_nil_l.
Qed.

Lemma posted_ids env rs w :
  (id <$> posted env rs w) `sublist_of` (Uuid.v4 <$> draws rs).
Proof.
  revert w. induction rs as [| r rs IH]; intros w; [apply sublist_nil |].
  assert (draws (r :: rs) = draws [r] ++ draws rs) as ->
    by (unfold draws; simpl; by rewrite app_nil_r).
  cbn [posted]. rewrite !fmap_app.
  apply sublist_app; [apply returned_by_ids | apply IH].
Qed.

Lemma v4_NoDup (rs : list (list Z)) :
  Forall Uuid.random_ok rs → NoDup (Uuid.set_version <$> rs) →
  NoDup (Uuid.v4 <$> rs).
Proof.
  induction rs as [| r rs IH]; [constructor |].
  intros [Hr Hrs]%Forall_cons [Hnotin Hnd]%NoDup_cons. simpl.
  apply NoDup_cons. split; [| by apply IH].
  intros (r' & Heq & Hin)%list_elem_of_fmap. apply Hnotin.
  apply list_elem_of_fmap. exists r'. split; [| done].
  apply unsafeStringify_inj; [by apply set_version_ok | | done].
  apply set_version_ok. by eapply (proj1 (Forall_forall _ _) Hrs).
Qed.

(** X6.  When the random source gives the mutations of a run proper draws
    that differ pairwise outside the six bits uuid overwrites, the records
    the run stores have pairwise distinct identifiers. *)
Theorem identifiers_are_unique_in_a_run env rs w d :
  Forall Uuid.random_ok (draws rs) →
  NoDup (Uuid.set_version <$> draws rs) →
  NoDup (id <$> posted env rs w)
  ∧ NoDup (id <$> query_messages (run env rs (boot d))).
Proof.
  intros Hok Hnd.
  assert (∀ w0, NoDup (id <$> posted env rs w0)) as Hposted.
  { intros w0. eapply sublist_NoDup; [| apply posted_ids]. by apply v4_NoDup. }
  split; [apply Hposted |].
  unfold query_messages. rewrite run_messages. apply Hposted.
Qed.

Lemma identifiers_are_unique_in_a_run_witness :
  Forall Uuid.random_ok
    (draws [PostMessage (sample_amb 7) "Alice" (Some "hi") JUndefined; Subscribe;
            PostMessage (sample_amb 9) "Alice" (Some "hi") JUndefined])
  ∧ NoDup (Uuid.set_version <$>
      draws [PostMessage (sample_amb 7) "Alice" (Some "hi") JUndefined; Subscribe;
             PostMessage (sample_amb 9) "Alice" (Some "hi") JUndefined])
  ∧ (NoDup (id <$> posted sample_env
              [PostMessage (sample_amb 7) "Alice" (Some "hi") JUndefined; Subscribe;
               PostMessage (sample_amb 9) "Alice" (Some "hi") JUndefined] (boot ∅))
     ∧ NoDup (id <$> query_messages
                (run sample_env
                   [PostMessage (sample_amb 7) "Alice" (Some "hi") JUndefined; Subscribe;
                    PostMessage (sample_amb 9) "Alice" (Some "hi") JUndefined]
                   (boot ∅)))).
Proof.
  assert (Forall Uuid.random_ok
            (draws [PostMessage (sample_amb 7) "Alice" (Some "hi") JUndefined; Subscribe;
                    PostMessage (sample_amb 9) "Alice" (Some "hi") JUndefined])) as Hok.
  { repeat constructor; simpl; lia. }
  assert (NoDup (Uuid.set_version <$>
            draws [PostMessage (sample_amb 7) "Alice" (Some "hi") JUndefined; Subscribe;
                   PostMessage (sample_amb 9) "Alice" (Some "hi") JUndefined])) as Hnd.
  { apply NoDup_cons. split; [| apply NoDup_singleton].
    intros Hin%list_elem_of_singleton. vm_compute in Hin. discriminate Hin. }
  split; [exact Hok |]. split; [exact Hnd |].
  apply (identifiers_are_unique_in_a_run sample_env
           [PostMessage (sample_amb 7) "Alice" (Some "hi") JUndefined; Subscribe;
            PostMessage (sample_amb 9) "Alice" (Some "hi") JUndefined]
           (boot ∅) ∅ Hok Hnd).
Defined.

(** ** Uploads under one name *)

(** X7.  Uploads are stored under their file name without any collision
    handling: when two uploads with the same plain name are written one
    after the other, both records carry the same URL; it serves the first
    upload's bytes after the first call and the second upload's bytes after
    the second, when the first's are gone. *)
Theorem same_name_upload_overwrites env amb1 amb2 s1 c1 s2 c2 u1 u2 w :
  Path.isAbsolute (module_filename env) = true →
  plain_name (upload_filename u1) = true →
  upload_filename u2 = upload_filename u1 →
  write_outcome amb1 = Finish →
  write_outcome amb2 = Finish →
  ∃ m1 w1 m2 w2 fd1 fd2,
    postMessage env amb1 s1 c1 (JThenable (Fulfilled u1)) w = (Returned m1, w1)
    ∧ postMessage env amb2 s2 c2 (JThenable (Fulfilled u2)) w1 = (Returned m2, w2)
    ∧ file m1 = Some fd1 ∧ file m2 = Some fd2 ∧ url fd1 = url fd2
    ∧ http_get env w1 (url fd1) = Http.Ok200 (createReadStream u1)
    ∧ http_get env w2 (url fd1) = Http.Ok200 (createReadStream u2)
    ∧ query_messages w2 = query_messages w ++ [m1; m2].
Proof.
  intros Habs Hname Hsame Hfin1 Hfin2.
  destruct (uploadsDir_canonical env Habs) as [l Hl].
  pose proof (join_canonical _ _ _ Hl (plain_name_clean _ Hname)) as Hjoin.
  destruct u2 as [b2 n2 t2 e2]. simpl in Hsame. subst n2.
  do 6 eexists.
  split; [by apply postMessage_upload_finished |].
  split; [by apply postMessage_upload_finished |].
  split; [reflexivity |]. split; [reflexivity |]. split; [reflexivity |].
  unfold http_get, query_messages. simpl. rewrite Hjoin. split; [| split].
  - apply (get_upload_url _ _ l); [done | done |]. apply lookup_insert_eq.
  - apply (get_upload_url _ _ l); [done | done |]. apply lookup_insert_eq.
  - by rewrite <- app_assoc.
Qed.

Lemma same_name_upload_overwrites_witness :
  Path.isAbsolute (module_filename sample_env) = true
  ∧ plain_name (upload_filename (sample_upload "a.txt")) = true
  ∧ upload_filename
      {| createReadStream := ["b"; "y"; "e"]%byte; upload_filename := "a.txt";
         upload_mimetype := "text/plain"; upload_encoding := "7bit" |}
    = upload_filename (sample_upload "a.txt")
  ∧ write_outcome (sample_amb 7) = Finish
  ∧ write_outcome (sample_amb 9) = Finish
  ∧ ∃ m1 w1 m2 w2 fd1 fd2,
      postMessage sample_env (sample_amb 7) "Alice" None
        (JThenable (Fulfilled (sample_upload "a.txt"))) (boot ∅) = (Returned m1, w1)
      ∧ postMessage sample_env (sample_amb 9) "Bob" None
          (JThenable (Fulfilled
             {| createReadStream := ["b"; "y"; "e"]%byte; upload_filename := "a.txt";
                upload_mimetype := "text/plain"; upload_encoding := "7bit" |})) w1
        = (Returned m2, w2)
      ∧ file m1 = Some fd1 ∧ file m2 = Some fd2 ∧ url fd1 = url fd2
      ∧ http_get sample_env w1 (url fd1)
        = Http.Ok200 (createReadStream (sample_upload "a.txt"))
      ∧ http_get sample_env w2 (url fd1) = Http.Ok200 ["b"; "y"; "e"]%byte
      ∧ query_messages w2 = query_messages (boot ∅) ++ [m1; m2].
Proof.
  split; [reflexivity |]. split; [reflexivity |]. split; [reflexivity |].
  split; [reflexivity |]. split; [reflexivity |].
  apply (same_name_upload_overwrites sample_env (sample_amb 7) (sample_amb 9)
           "Alice" None "Bob" None (sample_upload "a.txt")
           {| createReadStream := ["b"; "y"; "e"]%byte; upload_filename := "a.txt";
              upload_mimetype := "text/plain"; upload_encoding := "7bit" |} (boot ∅));
    reflexivity.
Defined.

(** ** File names that climb out of the uploads directory *)

Section Traversal.
Import Path.

Lemma kept_segments_clean dir : Forall (λ seg, clean seg = true) (kept_segments dir).
Proof.
  unfold kept_segments. apply List.Forall_rev.
  apply fold_norm_keeps_clean; [done | apply segments_no_sep].
Qed.

Lemma normalize_absolute x l :
  isAbsolute x = true → trailingSeparator x = false →
  kept_segments x = l → l ≠ [] →
  normalize x = "/" +:+ String.concat "/" l.
Proof.
  intros Habs Htr Hl Hne. unfold normalize. cbv zeta.
  assert (String.eqb x "" = false) as -> by (by destruct x).
  rewrite Habs, Htr. cbn [negb]. unfold normalizeString.
  fold (kept_segments x). rewrite Hl.
  assert (String.eqb (String.concat "/" l) "" = false) as ->; [| done].
  apply String.eqb_neq, concat_nonempty; [done |].
  rewrite <- Hl. apply kept_segments_clean.
Qed.

Lemma kept_segments_join dir seg :
  clean seg = true →
  kept_segments (dir +:+ String "/" seg) = kept_segments dir ++ [seg].
Proof.
  intros Hseg. pose proof (clean_inv _ Hseg) as (_ & _ & _ & _ & Hsep).
  unfold kept_segments.
  rewrite segments_append_sep, (segments_one seg), fold_left_app by done.
  cbn [fold_left]. by rewrite norm_step_clean.
Qed.

Lemma join_absolute_segments dir seg :
  isAbsolute dir = true → clean seg = true →
  join dir seg = "/" +:+ String.concat "/" (kept_segments dir ++ [seg]).
Proof.
  intros Hdir Hseg. pose proof (clean_inv _ Hseg) as (Hne & Hseg0 & _ & _ & Hsep).
  unfold join.
  assert (String.eqb dir "" = false) as -> by (by destruct dir).
  rewrite Hseg0. change ("/" +:+ seg) with (String "/" seg).
  apply normalize_absolute.
  - by destruct dir.
  - rewrite trailingSeparator_append by done. simpl.
    destruct seg; [done |]. by apply trailingSeparator_no_sep.
  - by apply kept_segments_join.
  - by destruct (kept_segments dir).
Qed.

Lemma kept_segments_canonical path l : canonical path l → kept_segments path = l.
Proof.
  intros (Hne & Hl & ->). unfold kept_segments.
  change ("/" +:+ ?s) with ("" +:+ String "/" s).
  rewrite segments_append_sep, segments_concat by done.
  cbn [segments app fold_left]. unfold norm_step at 2. cbn [String.eqb orb].
  by rewrite fold_norm_clean, app_nil_r, rev_involutive.
Qed.

Lemma norm_step_parent b top below :
  String.eqb top ".." = false → norm_step b (top :: below) ".." = below.
Proof.
  intros Htop. unfold norm_step.
  change (String.eqb ".." "") with false. change (String.eqb ".." ".") with false.
  change (String.eqb ".." "..") with true. cbn [orb]. by rewrite Htop.
Qed.

(** Joining [../g] to a directory in normal form replaces its last segment
    by [g]. *)
Lemma join_parent path l last g :
  canonical path (l ++ [last]) → clean g = true →
  join path ("../" +:+ g) = "/" +:+ String.concat "/" (l ++ [g]).
Proof.
  intros Hc Hg. pose proof (clean_inv _ Hg) as (Hne & _ & _ & _ & Hsep).
  pose proof Hc as (_ & Hall & Hp).
  apply Forall_app in Hall as [Hl Hlast]. apply Forall_cons in Hlast as [Hlast _].
  pose proof (clean_inv _ Hlast) as (_ & _ & _ & Hlast2 & _).
  unfold join.
  assert (String.eqb path "" = false) as -> by (subst path; done).
  change (String.eqb ("../" +:+ g) "") with false. cbv iota.
  change (path +:+ "/" +:+ "../" +:+ g)
    with (path +:+ String "/" (".." +:+ String "/" g)).
  apply normalize_absolute.
  - by subst path.
  - rewrite trailingSeparator_append by done. simpl.
    destruct g; [done |]. by apply trailingSeparator_no_sep.
  - unfold kept_segments.
    rewrite !segments_append_sep, (segments_one g), !fold_left_app by done.
    change (segments "..") with [".."].
    assert (fold_left (norm_step false) (segments path) [] = last :: rev l) as ->.
    { apply rev_inj. cbn [rev]. rewrite rev_involutive.
      fold (kept_segments path). by apply kept_segments_canonical. }
    cbn [fold_left]. rewrite norm_step_parent, norm_step_clean by done.
    cbn [rev]. by rewrite rev_involutive.
  - by destruct l.
Qed.

End Traversal.

Section ClimbingNames.
Import Path.

Lemma normalize_below_root_parent g :
  clean g = true → normalize ("./" +:+ "/../" +:+ g) = "../" +:+ g.
Proof.
  intros Hg. pose proof (clean_inv _ Hg) as (Hne & _ & _ & _ & Hsep).
  unfold normalize. cbv zeta.
  change ("./" +:+ "/../" +:+ g)
    with ("." +:+ String "/" ("" +:+ String "/" (".." +:+ String "/" g))).
  assert (trailingSeparator
            ("." +:+ String "/" ("" +:+ String "/" (".." +:+ String "/" g))) = false)
    as ->.
  { rewrite !append_cons, !append_nil_l. simpl.
    destruct g; [done |]. by apply trailingSeparator_no_sep. }
  unfold normalizeString.
  rewrite !segments_append_sep, (segments_one g) by done.
  change (segments ".") with ["."]. change (segments "") with [""].
  change (segments "..") with [".."].
  change (isAbsolute ("." +:+ ?s)) with false.
  change (String.eqb ("." +:+ ?s) "") with false.
  cbn [app fold_left negb].
  change (norm_step true [] ".") with (@nil string).
  change (norm_step true [] "") with (@nil string).
  change (norm_step true [] "..") with [".."].
  rewrite norm_step_clean by done. cbn [rev app].
  rewrite concat_cons. cbn [String.concat].
  change (String.eqb (String "." ?s) "") with false. cbv iota.
  change (is_sep ".") with false. reflexivity.
Qed.

Lemma serve_static_parent cwd root d g :
  plain_name g = true → Http.serve_static cwd root d ("/../" +:+ g) = None.
Proof.
  intros Hg. pose proof (plain_name_chars _ Hg) as Hchars.
  pose proof (plain_name_clean _ Hg) as Hclean.
  pose proof (clean_inv _ Hclean) as (_ & _ & _ & _ & Hsep).
  unfold Http.serve_static.
  assert (Http.decode ("/../" +:+ g) = Some ("/../" +:+ g)) as ->.
  { rewrite !append_cons, append_nil_l. cbn [Http.decode].
    change (Ascii.eqb "/" "%") with false. change (Ascii.eqb "." "%") with false.
    cbv iota. by rewrite plain_decode. }
  assert (contains_char (Ascii.eqb zero) ("/../" +:+ g) = false) as ->.
  { rewrite contains_char_append, (plain_no_nul g) by done. reflexivity. }
  assert (String.eqb ("/../" +:+ g) "" = false) as -> by reflexivity.
  rewrite normalize_below_root_parent by done.
  assert (Http.up_path ("../" +:+ g) = true) as ->; [| done].
  unfold Http.up_path.
  assert (map_chars (λ c, if Ascii.eqb c "\" then "/"%char else c) ("../" +:+ g)
          = ".." +:+ String "/" g) as ->.
  { rewrite !append_cons, append_nil_l. cbn [map_chars].
    by rewrite plain_no_backslash. }
  by rewrite segments_append_sep, (segments_one g).
Qed.

(** A GET of the URL built for a name that climbs is answered 404, whatever
    the disk holds. *)
Lemma get_parent_url cwd root d g :
  plain_name g = true →
  Http.get PORT cwd root d ("http://localhost:4000/uploads/" +:+ "../" +:+ g)
    = Http.NotFound404.
Proof.
  intros Hg. unfold Http.get.
  assert (Http.request_path PORT ("http://localhost:4000/uploads/" +:+ "../" +:+ g)
          = Some ("/uploads/../" +:+ g)) as ->.
  { unfold Http.request_path.
    change (Http.origin PORT) with "http://localhost:4000".
    rewrite !append_cons, !append_nil_l. cbn.
    by rewrite plain_take_until by by apply plain_name_chars. }
  rewrite !append_cons, append_nil_l.
  change (String.eqb (String "/" (String "u" ?s)) "/") with false. cbv iota.
  change (Http.below_mount "/uploads" ?s) with (Some ("/../" +:+ g)).
  change (Http.below_mount "/graphql" ?s) with (@None string).
  cbv beta iota. by rewrite serve_static_parent.
Qed.

Lemma uploadsDir_segments env :
  isAbsolute (module_filename env) = true →
  canonical (uploadsDir env) (kept_segments (__dirname env) ++ ["uploads"]).
Proof.
  intros Habs. split; [by destruct (kept_segments (__dirname env)) |]. split.
  - apply Forall_app. split; [apply kept_segments_clean | by constructor].
  - unfold uploadsDir. apply join_absolute_segments; [| done].
    by apply dirname_absolute.
Qed.

(** A path with one segment less is not below the directory. *)
Lemma sibling_not_below l last g rest :
  Forall (λ seg, clean seg = true) (l ++ [last]) → clean g = true →
  "/" +:+ String.concat "/" (l ++ [g])
    ≠ ("/" +:+ String.concat "/" (l ++ [last])) +:+ "/" +:+ rest.
Proof.
  intros Hall Hg Heq.
  change (("/" +:+ ?a) +:+ "/" +:+ rest) with ("/" +:+ (a +:+ String "/" rest)) in Heq.
  injection Heq as Heq. apply (f_equal segments) in Heq.
  assert (Forall (λ seg, clean seg = true) (l ++ [g])) as Hallg.
  { apply Forall_app in Hall as [Hl _]. apply Forall_app. split; [done |].
    by constructor. }
  rewrite !append_nil_l in Heq.
  rewrite segments_append_sep, !segments_concat in Heq
    by (done || by destruct l).
  rewrite <- app_assoc in Heq. apply app_inv_head in Heq.
  simpl in Heq. injection Heq as _ Heq.
  pose proof (segments_nonempty rest). by destruct (segments rest).
Qed.

End ClimbingNames.

(** X8.  The file name of an upload is joined to the uploads directory as
    it is, so a name that climbs leaves it: an upload named [../g], for a
    plain name [g], is written next to the server module, at
    [path.join(__dirname, g)]; nothing below the uploads directory changes;
    and a GET of the URL in the returned descriptor, its path sent as
    written, is answered 404. *)
Theorem climbing_name_escapes_uploads env amb s c u w g :
  Path.isAbsolute (module_filename env) = true →
  plain_name g = true →
  upload_filename u = "../" +:+ g →
  write_outcome amb = Finish →
  ∃ m fd w',
    postMessage env amb s c (JThenable (Fulfilled u)) w = (Returned m, w')
    ∧ file m = Some fd
    ∧ disk w' !! Path.join (__dirname env) g = Some (createReadStream u)
    ∧ (∀ rest, disk w' !! (uploadsDir env +:+ "/" +:+ rest)
               = disk w !! (uploadsDir env +:+ "/" +:+ rest))
    ∧ http_get env w' (url fd) = Http.NotFound404.
Proof.
  intros Habs Hg Hname Hfin.
  pose proof (plain_name_clean _ Hg) as Hclean.
  pose proof (uploadsDir_segments env Habs) as Hup.
  assert (Path.join (uploadsDir env) (upload_filename u)
          = Path.join (__dirname env) g) as Hpath.
  { rewrite Hname, (join_parent _ _ _ _ Hup Hclean).
    symmetry. apply join_absolute_segments; [| done].
    by apply dirname_absolute. }
  rewrite (postMessage_upload_finished _ _ _ _ _ _ Hfin).
  do 3 eexists. split; [reflexivity |]. split; [reflexivity |].
  cbn [disk committed]. rewrite Hpath. split; [apply lookup_insert_eq |]. split.
  - intros rest. apply lookup_insert_ne.
    rewrite join_absolute_segments by (done || by apply dirname_absolute).
    destruct Hup as (_ & Hall & ->). by apply sibling_not_below.
  - unfold http_get. cbn [file record_of url descriptor_of disk committed].
    rewrite Hname. by apply get_parent_url.
Qed.

Lemma climbing_name_escapes_uploads_witness :
  Path.isAbsolute (module_filename sample_env) = true
  ∧ plain_name "index.js" = true
  ∧ upload_filename (sample_upload "../index.js") = "../" +:+ "index.js"
  ∧ write_outcome (sample_amb 7) = Finish
  ∧ ∃ m fd w',
      postMessage sample_env (sample_amb 7) "Alice" None
        (JThenable (Fulfilled (sample_upload "../index.js"))) (boot ∅) = (Returned m, w')
      ∧ file m = Some fd
      ∧ disk w' !! Path.join (__dirname sample_env) "index.js"
        = Some (createReadStream (sample_upload "../index.js"))
      ∧ (∀ rest, disk w' !! (uploadsDir sample_env +:+ "/" +:+ rest)
                 = disk (boot ∅) !! (uploadsDir sample_env +:+ "/" +:+ rest))
      ∧ http_get sample_env w' (url fd) = Http.NotFound404.
Proof.
  split; [reflexivity |]. split; [reflexivity |]. split; [reflexivity |].
  split; [reflexivity |].
  apply (climbing_name_escapes_uploads sample_env (sample_amb 7) "Alice" None
           (sample_upload "../index.js") (boot ∅) "index.js"); reflexivity.
Defined.

(** ** Links in the store *)

Lemma file_in_place_mono env w w' m :
  (∀ p, is_Some (disk w !! p) → is_Some (disk w' !! p)) →
  file_in_place env w m → file_in_place env w' m.
Proof.
  intros Hmono Hm fd Hfd. destruct (Hm fd Hfd) as [Hd Hu]. split; [| done].
  by apply Hmono.
Qed.

Lemma handle_files_in_place env w r :
  Forall (file_in_place env w) (messages w) →
  Forall (file_in_place env (handle env w r)) (messages (handle env w r)).
Proof.
  intros Hw. rewrite handle_messages. apply Forall_app. split.
  - eapply Forall_impl; [exact Hw |]. intros m Hm.
    eapply file_in_place_mono; [| exact Hm].
    intros p. apply handle_keeps_files.
  - destruct r as [amb s c f | | | k0]; simpl; try done.
    destruct (postMessage env amb s c f w) as [[m | e] w'] eqn:Hp; simpl; [| done].
    constructor; [| done].
    apply postMessage_returned in Hp
      as [(_ & -> & _) | (u & _ & _ & -> & ->)]; intros fd Hfd; simpl in Hfd;
      simplify_eq.
    simpl. split; [| done]. rewrite lookup_insert_eq. eauto.
Qed.

Lemma run_files_in_place env rs w :
  Forall (file_in_place env w) (messages w) →
  Forall (file_in_place env (run env rs w)) (messages (run env rs w)).
Proof.
  revert w. unfold run. induction rs as [| r rs IH]; intros w Hw; simpl; [done |].
  by apply IH, handle_files_in_place.
Qed.

(** X9.  Links in the chat do not go dead: after any run of requests since
    the start of the process, the URL of every stored file descriptor with a
    plain file name is answered 200, with what the file of that name then
    holds. *)
Theorem stored_links_stay_served env rs d m fd :
  Path.isAbsolute (module_filename env) = true →
  m ∈ query_messages (run env rs (boot d)) →
  file m = Some fd →
  plain_name (filename fd) = true →
  ∃ body, http_get env (run env rs (boot d)) (url fd) = Http.Ok200 body.
Proof.
  intros Habs Hm Hfd Hplain.
  pose proof (run_files_in_place env rs (boot d) (Forall_nil_2 _)) as Hall.
  rewrite Forall_forall in Hall.
  destruct (Hall m Hm fd Hfd) as [[body Hbody] ->].
  destruct (uploadsDir_canonical env Habs) as [l Hl].
  rewrite (join_canonical _ _ _ Hl (plain_name_clean _ Hplain)) in Hbody.
  exists body. by apply (get_upload_url _ _ l).
Qed.

Lemma stored_links_stay_served_witness :
  Path.isAbsolute (module_filename sample_env) = true
  ∧ record_of (sample_amb 7) "Alice" None (Some (descriptor_of (sample_upload "a.txt")))
      ∈ query_messages
          (run sample_env
             [PostMessage (sample_amb 7) "Alice" None
                (JThenable (Fulfilled (sample_upload "a.txt")));
              PostMessage failing_amb "Bob" None
                (JThenable (Fulfilled (sample_upload "a.txt")))]
             (boot ∅))
  ∧ file (record_of (sample_amb 7) "Alice" None
            (Some (descriptor_of (sample_upload "a.txt"))))
    = Some (descriptor_of (sample_upload "a.txt"))
  ∧ plain_name (filename (descriptor_of (sample_upload "a.txt"))) = true
  ∧ ∃ body,
      http_get sample_env
        (run sample_env
           [PostMessage (sample_amb 7) "Alice" None
              (JThenable (Fulfilled (sample_upload "a.txt")));
            PostMessage failing_amb "Bob" None
              (JThenable (Fulfilled (sample_upload "a.txt")))]
           (boot ∅))
        (url (descriptor_of (sample_upload "a.txt"))) = Http.Ok200 body.
Proof.
  assert (record_of (sample_amb 7) "Alice" None
            (Some (descriptor_of (sample_upload "a.txt")))
          ∈ query_messages
              (run sample_env
                 [PostMessage (sample_amb 7) "Alice" None
                    (JThenable (Fulfilled (sample_upload "a.txt")));
                  PostMessage failing_amb "Bob" None
                    (JThenable (Fulfilled (sample_upload "a.txt")))]
                 (boot ∅))) as Hin by apply list_elem_of_here.
  split; [reflexivity |]. split; [exact Hin |]. split; [reflexivity |].
  split; [reflexivity |].
  apply (stored_links_stay_served sample_env _ ∅ _ _ eq_refl Hin eq_refl eq_refl).
Defined.

(** ** Queries and subscriptions together *)

Lemma post_idle env amb s c f w k it :
  pubsub w !! k = Some it → allSubscribed it = false →
  pubsub (postMessage env amb s c f w).2 !! k = Some it.
Proof.
  intros Hk Hs.
  destruct (postMessage_cases env amb s c f w)
    as [(m & d & l & -> & _) | (e & d & l & ->)]; simpl; [| done].
  by rewrite (publish_lookup _ _ _ _ Hk), emit_idle.
Qed.

Lemma first_next_lookup w k it :
  pubsub w !! k = Some it →
  pubsub (iterator_next k w) !! k = Some (PubSub.pull it).
Proof.
  intros Hk. unfold iterator_next. cbn [pubsub].
  rewrite (next_lookup _ _ _ _ Hk). by case_decide.
Qed.

(** X10.  An iterator of the subscription is registered at its first
    [next()], not when the resolver returns it: a record published in
    between is never handed to it.  From that first [next()] on, a query
    and the iterator compose: what a later query returns is what a query
    returned at the first [next()], followed by the records the iterator
    has been handed since, in the same order. *)
Theorem later_query_is_query_plus_events env w0 amb s c f rs :
  let k := (messageAdded_subscribe w0).1 in
  let w1 := handle env (messageAdded_subscribe w0).2 (PostMessage amb s c f) in
  let w2 := iterator_next k w1 in
  PubSub.received k (pubsub w1) = []
  ∧ PubSub.received k (pubsub w2) = []
  ∧ query_messages (run env rs w2)
    = query_messages w1
        ++ map messageAdded (PubSub.received k (pubsub (run env rs w2))).
Proof.
  intros k w1 w2.
  pose proof (post_idle env amb s c f _ _ _ (subscribe_lookup w0) eq_refl) as Hk1.
  fold k in Hk1. change (postMessage env amb s c f _).2 with w1 in Hk1.
  pose proof (first_next_lookup _ _ _ Hk1) as Hk2. fold w2 in Hk2.
  split; [unfold PubSub.received; by rewrite Hk1 |].
  split; [unfold PubSub.received; by rewrite Hk2 |].
  destruct (run_listening env rs w2 k _ Hk2) as (it & Hit & _ & _ & _ & Hq);
    try done; [by right |].
  unfold PubSub.received, query_messages. rewrite Hit, Hq, run_messages.
  cbn [PubSub.handed PubSub.pull pushQueue yielded app].
  rewrite map_map. cbn [messageAdded]. by rewrite map_id.
Qed.

(** X11.  Iterators that are being pulled see one order: what a later one
    has been handed is the end of what an earlier one has been handed, the
    earlier one having in addition exactly what it had when the later one
    was first pulled; and the two are different iterators. *)
Theorem later_subscriber_sees_a_suffix env w0 rs1 rs2 :
  let k1 := (messageAdded_subscribe w0).1 in
  let w1 := iterator_next k1 (messageAdded_subscribe w0).2 in
  let w2 := run env rs1 w1 in
  let k2 := (messageAdded_subscribe w2).1 in
  let w3 := iterator_next k2 (messageAdded_subscribe w2).2 in
  let w4 := run env rs2 w3 in
  k1 ≠ k2
  ∧ PubSub.received k1 (pubsub w4)
      = PubSub.received k1 (pubsub w2) ++ PubSub.received k2 (pubsub w4).
Proof.
  intros k1 w1 w2 k2 w3 w4.
  pose proof (first_next_lookup _ _ _ (subscribe_lookup w0)) as Hk1.
  fold k1 w1 in Hk1.
  destruct (run_listening env rs1 w1 k1 _ Hk1)
    as (it2 & Hit2 & Htop2 & Hst2 & Hs2 & Hq2); try done; [by right |].
  fold w2 in Hit2.
  pose proof (first_next_lookup _ _ _ (subscribe_lookup w2)) as Hk2.
  fold k2 w3 in Hk2.
  assert (k1 ≠ k2) as Hne.
  { apply lookup_lt_Some in Hit2. subst k2.
    unfold messageAdded_subscribe, PubSub.asyncIterator. simpl. lia. }
  assert (pubsub w3 !! k1 = Some it2) as Hk1'.
  { subst w3. unfold iterator_next. cbn [pubsub].
    assert (pubsub (messageAdded_subscribe w2).2 !! k1 = Some it2) as Hl.
    { unfold messageAdded_subscribe, PubSub.asyncIterator. simpl.
      by apply lookup_app_l_Some. }
    rewrite (next_lookup _ _ _ _ Hl). case_decide; [| done]. by subst. }
  destruct (run_listening env rs2 w3 k1 _ Hk1' Htop2 Hst2 Hs2)
    as (it4 & Hit4 & _ & _ & _ & Hq4).
  destruct (run_listening env rs2 w3 k2 _ Hk2)
    as (it4' & Hit4' & _ & _ & _ & Hq4'); try done; [by right |].
  fold w4 in Hit4, Hit4'. split; [done |].
  unfold PubSub.received. by rewrite Hit4, Hit4', Hit2, Hq4, Hq4'.
Qed.

(** * Properties of the front-ends *)

(** ** The subscription handler *)

Lemma some_same_id prev m :
  existsb (λ msg, String.eqb (View.id msg) (View.id m)) prev = true
  ↔ View.id m ∈ View.id <$> prev.
Proof.
  rewrite existsb_exists, list_elem_of_fmap. split.
  - intros (x & Hx & Heq). exists x. apply String.eqb_eq in Heq.
    split; [done |]. by apply list_elem_of_In.
  - intros (x & Heq & Hx). exists x. split; [by apply list_elem_of_In |].
    by apply String.eqb_eq.
Qed.

Lemma onData_known prev m :
  View.id m ∈ View.id <$> prev → onData prev m = prev.
Proof. intros H%some_same_id. unfold onData. by rewrite H. Qed.

Lemma onData_fresh prev m :
  View.id m ∉ View.id <$> prev → onData prev m = prev ++ [m].
Proof.
  intros H. unfold onData.
  destruct (existsb _ prev) eqn:He; [| done]. by apply some_same_id in He.
Qed.

(** X12.  The subscription handler only ever appends: the messages shown
    stay where they are, the identifier of the new message is among those
    shown afterwards, and delivering the same message again changes
    nothing. *)
Theorem onData_appends_once prev m :
  prev `prefix_of` onData prev m
  ∧ View.id m ∈ View.id <$> onData prev m
  ∧ onData (onData prev m) m = onData prev m.
Proof.
  assert (View.id m ∈ View.id <$> onData prev m) as Hin.
  { destruct (decide (View.id m ∈ View.id <$> prev)) as [Hk | Hf].
    - by rewrite onData_known.
    - rewrite onData_fresh, fmap_app by done. apply elem_of_app. right.
      apply list_elem_of_here. }
  split; [| split; [done | by apply onData_known]].
  destruct (decide (View.id m ∈ View.id <$> prev)) as [Hk | Hf].
  - by rewrite onData_known.
  - rewrite onData_fresh by done. by apply prefix_app_r.
Qed.

(** X13.  The subscription handler keeps the identifiers of the messages
    shown pairwise distinct (they are the keys of the rendered list). *)
Theorem onData_keeps_ids_distinct prev m :
  NoDup (View.id <$> prev) → NoDup (View.id <$> onData prev m).
Proof.
  intros Hnd. destruct (decide (View.id m ∈ View.id <$> prev)) as [Hk | Hf].
  - by rewrite onData_known.
  - rewrite onData_fresh, fmap_app by done. apply NoDup_app.
    split; [done |]. split; [| apply NoDup_singleton].
    intros x Hx ->%list_elem_of_singleton. done.
Qed.

Lemma onData_keeps_ids_distinct_witness :
  NoDup (View.id <$> [select (record_of (sample_amb 7) "Alice" (Some "hi") None)])
  ∧ NoDup (View.id <$>
      onData [select (record_of (sample_amb 7) "Alice" (Some "hi") None)]
        (select (record_of (sample_amb 7) "Bob" (Some "again") None))).
Proof.
  assert (NoDup (View.id <$>
            [select (record_of (sample_amb 7) "Alice" (Some "hi") None)])) as H
    by apply NoDup_singleton.
  split; [exact H |].
  apply (onData_keeps_ids_distinct
           [select (record_of (sample_amb 7) "Alice" (Some "hi") None)]
           (select (record_of (sample_amb 7) "Bob" (Some "again") None))).
  exact H.
Defined.

(** ** Polling and the subscription together *)

Lemma fold_onData_known news view :
  (∀ m, m ∈ news → View.id m ∈ View.id <$> view) →
  fold_left onData news view = view.
Proof.
  induction news as [| m news IH]; intros Hall; simpl; [done |].
  rewrite onData_known by (apply Hall, list_elem_of_here).
  apply IH. intros m' Hm'. apply Hall. by apply list_elem_of_further.
Qed.

Lemma events_in_run env w0 rs p :
  p ∈ PubSub.received (messageAdded_subscribe w0).1
        (pubsub (run env rs (messageAdded_subscribe w0).2)) →
  messageAdded p ∈ posted env rs (messageAdded_subscribe w0).2.
Proof.
  destruct (run_any env rs _ _ _ (subscribe_lookup w0))
    as (it & l & Hit & _ & _ & Hq & Hl); [done | by left |].
  unfold PubSub.received. rewrite Hit, Hq. cbn [PubSub.handed yielded pushQueue app].
  change (map Build_Payload l) with (Build_Payload <$> l).
  intros (m & -> & Hm)%list_elem_of_fmap. by apply Hl.
Qed.

(** X15.  An event for a record the front-end has already polled is
    dropped: when the poll has returned the store as it is after a run, the
    events of that run, arriving late, leave the list as polled. *)
Theorem late_events_change_nothing env w0 rs prev :
  let k := (messageAdded_subscribe w0).1 in
  let w1 := (messageAdded_subscribe w0).2 in
  let polled :=
    useEffect_data (Some (Some (select <$> query_messages (run env rs w1)))) prev in
  let events :=
    (select ∘ messageAdded) <$> PubSub.received k (pubsub (run env rs w1)) in
  fold_left onData events polled = polled.
Proof.
  intros k w1 polled events. subst events k w1 polled.
  unfold query_messages. simpl useEffect_data.
  rewrite run_messages. apply fold_onData_known.
  intros m (p & -> & Hp%events_in_run)%list_elem_of_fmap.
  apply list_elem_of_fmap. exists (select (messageAdded p)). split; [done |].
  apply list_elem_of_fmap. exists (messageAdded p). split; [done |].
  apply elem_of_app. by right.
Qed.

(** ** Uploading from a front-end *)

Lemma thenable_guard f : then_is_function f = true → truthy f && then_is_function f = true.
Proof. by destruct f. Qed.

Lemma postMessage_not_resolved env amb s c f w :
  resolves amb f = false →
  ∃ e d l, postMessage env amb s c f w =
    (Rejected e,
     {| messages := messages w; disk := d; pubsub := pubsub w; writeStreams := l |}).
Proof.
  intros Hr. destruct f as [| | | | | | [u | e]]; try discriminate Hr.
  - simpl in Hr. destruct (write_error (write_outcome amb)) as [e |] eqn:Ho.
    + destruct (postMessage_upload_failed env amb s c u w e Ho) as [d Hd]. eauto.
    + destruct (write_outcome amb); simplify_eq/=.
  - exists e, (disk w), (writeStreams w). rewrite postMessage_upload_rejected.
    by destruct w.
Qed.

(** What [handleUpload] does once it has a file and a sender. *)
Lemma handleUpload_sent wire env amb st w f :
  Component.file st = Some f → Component.sender st ≠ "" →
  handleUpload wire env amb st w =
    match postMessage env amb (Component.sender st) None (wire f) w with
    | (Returned m, w') =>
        ({| Component.file := None; Component.sender := Component.sender st;
            Component.uploaded := View.file (select m);
            Component.messages := Component.messages st |}, w')
    | (Rejected _, w') => (st, w')
    end.
Proof.
  intros Hf Hs%String.eqb_neq. unfold handleUpload, execute_postMessage.
  rewrite Hf, Hs. by destruct (postMessage _ _ _ _ _ _) as [[m | e] w'].
Qed.

(** X16.  The front-ends keep the data-model invariant the resolver does
    not enforce: whatever the state of the component, [handleUpload] adds to
    the store at most a record that has a file descriptor (and a non-empty
    sender and null content), provided the upload link hands the resolver a
    promise. *)
Theorem handleUpload_keeps_invariant wire env amb st w :
  (∀ f, then_is_function (wire f) = true) →
  Forall has_body (messages w) →
  let w' := (handleUpload wire env amb st w).2 in
  Forall has_body (messages w')
  ∧ (messages w' = messages w
     ∨ ∃ m, messages w' = messages w ++ [m]
            ∧ is_Some (file m) ∧ sender m ≠ "" ∧ content m = None).
Proof.
  intros Hwire Hall w'. subst w'.
  assert (messages (handleUpload wire env amb st w).2 = messages w
          ∨ ∃ m, messages (handleUpload wire env amb st w).2 = messages w ++ [m]
                 ∧ is_Some (file m) ∧ sender m ≠ "" ∧ content m = None) as Hcases.
  { destruct (Component.file st) as [f |] eqn:Hf;
      [| left; unfold handleUpload; by rewrite Hf].
    destruct (decide (Component.sender st = "")) as [Hs | Hs];
      [left; unfold handleUpload; rewrite Hf, Hs; done |].
    rewrite (handleUpload_sent _ _ _ _ _ _ Hf Hs).
    destruct (postMessage env amb (Component.sender st) None (wire f) w)
      as [[m | e] w1] eqn:Hp; simpl.
    - right. exists m.
      apply postMessage_returned in Hp as [(Hg & _) | (u & _ & _ & -> & ->)].
      + by rewrite (thenable_guard _ (Hwire f)) in Hg.
      + simpl. eauto.
    - left. destruct (postMessage_cases env amb (Component.sender st) None (wire f) w)
        as [(m & d & l & Heq & _) | (e' & d & l & Heq)]; rewrite Hp in Heq;
        by simplify_eq. }
  split; [| done].
  destruct Hcases as [-> | (m & -> & Hfile & _)]; [done |].
  apply Forall_app. split; [done |]. constructor; [by right | done].
Qed.

Lemma handleUpload_keeps_invariant_witness :
  (∀ f, then_is_function (sample_wire f) = true)
  ∧ Forall has_body (messages (boot ∅))
  ∧ let w' := (handleUpload sample_wire sample_env (sample_amb 7)
                 (sample_state (Some (sample_file "a.txt")) "Alice") (boot ∅)).2 in
    Forall has_body (messages w')
    ∧ (messages w' = messages (boot ∅)
       ∨ ∃ m, messages w' = messages (boot ∅) ++ [m]
              ∧ is_Some (file m) ∧ sender m ≠ "" ∧ content m = None).
Proof.
  assert (∀ f, then_is_function (sample_wire f) = true) as Hwire by done.
  assert (Forall has_body (messages (boot ∅))) as Hall by constructor.
  split; [exact Hwire |]. split; [exact Hall |].
  apply (handleUpload_keeps_invariant sample_wire sample_env (sample_amb 7)
           (sample_state (Some (sample_file "a.txt")) "Alice") (boot ∅) Hwire Hall).
Defined.

(** X17.  After an upload that goes through, the component links to the
    file just sent: for a picked file that reaches the resolver under a
    plain name with its bytes, [handleUpload] clears the picked file, keeps
    the sender and the list, and sets [uploaded] to a descriptor whose URL
    serves exactly the bytes of the picked file. *)
Theorem handleUpload_links_to_the_file wire env amb st w f u :
  Path.isAbsolute (module_filename env) = true →
  Component.file st = Some f →
  Component.sender st ≠ "" →
  wire f = JThenable (Fulfilled u) →
  plain_name (upload_filename u) = true →
  createReadStream u = bytes f →
  write_outcome amb = Finish →
  let r := handleUpload wire env amb st w in
  Component.file r.1 = None
  ∧ Component.sender r.1 = Component.sender st
  ∧ Component.messages r.1 = Component.messages st
  ∧ ∃ info, Component.uploaded r.1 = Some info
      ∧ View.filename info = upload_filename u
      ∧ http_get env r.2 (View.url info) = Http.Ok200 (bytes f).
Proof.
  intros Habs Hf Hs Hwire Hplain Hbytes Hfin r. subst r.
  rewrite (handleUpload_sent _ _ _ _ _ _ Hf Hs), Hwire.
  rewrite (postMessage_upload_finished _ _ _ _ _ _ Hfin). simpl.
  split; [done |]. split; [done |]. split; [done |].
  eexists. split; [reflexivity |]. split; [reflexivity |]. simpl.
  destruct (uploadsDir_canonical env Habs) as [l Hl].
  unfold http_get. simpl. rewrite <- Hbytes.
  apply (get_upload_url _ _ l); [done | done |].
  rewrite (join_canonical _ _ _ Hl (plain_name_clean _ Hplain)).
  apply lookup_insert_eq.
Qed.

Lemma handleUpload_links_to_the_file_witness :
  Path.isAbsolute (module_filename sample_env) = true
  ∧ Component.file (sample_state (Some (sample_file "a.txt")) "Alice")
    = Some (sample_file "a.txt")
  ∧ Component.sender (sample_state (Some (sample_file "a.txt")) "Alice") ≠ ""
  ∧ sample_wire (sample_file "a.txt") = JThenable (Fulfilled (sample_upload "a.txt"))
  ∧ plain_name (upload_filename (sample_upload "a.txt")) = true
  ∧ createReadStream (sample_upload "a.txt") = bytes (sample_file "a.txt")
  ∧ write_outcome (sample_amb 7) = Finish
  ∧ let r := handleUpload sample_wire sample_env (sample_amb 7)
               (sample_state (Some (sample_file "a.txt")) "Alice") (boot ∅) in
    Component.file r.1 = None
    ∧ Component.sender r.1
      = Component.sender (sample_state (Some (sample_file "a.txt")) "Alice")
    ∧ Component.messages r.1
      = Component.messages (sample_state (Some (sample_file "a.txt")) "Alice")
    ∧ ∃ info, Component.uploaded r.1 = Some info
        ∧ View.filename info = upload_filename (sample_upload "a.txt")
        ∧ http_get sample_env r.2 (View.url info)
          = Http.Ok200 (bytes (sample_file "a.txt")).
Proof.
  assert (Component.sender (sample_state (Some (sample_file "a.txt")) "Alice") ≠ "")
    as Hs by discriminate.
  split; [reflexivity |]. split; [reflexivity |]. split; [exact Hs |].
  split; [reflexivity |]. split; [reflexivity |]. split; [reflexivity |].
  split; [reflexivity |].
  apply (handleUpload_links_to_the_file sample_wire sample_env (sample_amb 7)
           (sample_state (Some (sample_file "a.txt")) "Alice") (boot ∅)
           (sample_file "a.txt") (sample_upload "a.txt")
           eq_refl eq_refl Hs eq_refl eq_refl eq_refl eq_refl).
Defined.

(** X18.  [handleUpload] changes the component only when the mutation
    returns a record: without a picked file or with an empty sender it sends
    nothing and the process is untouched; when the mutation is rejected the
    error is caught, the picked file, the sender and [uploaded] stay as they
    are, and the store and the topic are as before. *)
Theorem handleUpload_failure_changes_nothing wire env amb st w :
  Component.file st = None ∨ Component.sender st = ""
  ∨ (∃ f, Component.file st = Some f ∧ resolves amb (wire f) = false) →
  let r := handleUpload wire env amb st w in
  r.1 = st
  ∧ query_messages r.2 = query_messages w
  ∧ pubsub r.2 = pubsub w
  ∧ (Component.file st = None ∨ Component.sender st = "" → r.2 = w).
Proof.
  intros Hcase r. subst r.
  destruct (Component.file st) as [f |] eqn:Hf;
    [| unfold handleUpload; rewrite Hf; done].
  destruct (decide (Component.sender st = "")) as [Hs | Hs];
    [unfold handleUpload; rewrite Hf, Hs; done |].
  destruct Hcase as [? | [? | (f' & Hf' & Hr)]]; [done | done |]. simplify_eq.
  rewrite (handleUpload_sent _ _ _ _ _ _ Hf Hs).
  destruct (postMessage_not_resolved env amb (Component.sender st) None (wire f') w Hr)
    as (e & d & l & ->).
  simpl. split; [done |]. split; [done |]. split; [done |].
  intros [? | ?]; done.
Qed.

Lemma handleUpload_failure_changes_nothing_witness :
  (Component.file (sample_state (Some (sample_file "a.txt")) "Alice") = None
   ∨ Component.sender (sample_state (Some (sample_file "a.txt")) "Alice") = ""
   ∨ (∃ f, Component.file (sample_state (Some (sample_file "a.txt")) "Alice") = Some f
           ∧ resolves failing_amb (sample_wire f) = false))
  ∧ let r := handleUpload sample_wire sample_env failing_amb
               (sample_state (Some (sample_file "a.txt")) "Alice") (boot ∅) in
    r.1 = sample_state (Some (sample_file "a.txt")) "Alice"
    ∧ query_messages r.2 = query_messages (boot ∅)
    ∧ pubsub r.2 = pubsub (boot ∅)
    ∧ (Component.file (sample_state (Some (sample_file "a.txt")) "Alice") = None
       ∨ Component.sender (sample_state (Some (sample_file "a.txt")) "Alice") = ""
       → r.2 = boot ∅).
Proof.
  assert (Component.file (sample_state (Some (sample_file "a.txt")) "Alice") = None
          ∨ Component.sender (sample_state (Some (sample_file "a.txt")) "Alice") = ""
          ∨ (∃ f, Component.file (sample_state (Some (sample_file "a.txt")) "Alice")
                  = Some f
                  ∧ resolves failing_amb (sample_wire f) = false)) as Hcase.
  { right. right. exists (sample_file "a.txt"). split; reflexivity. }
  split; [exact Hcase |].
  apply (handleUpload_failure_changes_nothing sample_wire sample_env failing_amb
           (sample_state (Some (sample_file "a.txt")) "Alice") (boot ∅) Hcase).
Defined.

(** ** Showing a file *)

(** X19.  Which element shows a file depends on the prefix of its media
    type alone, whatever the order of the tests: an image for [image/], an
    audio player for [audio/], a video player for [video/], and a link for
    every other type. *)
Theorem file_element_by_prefix mt :
  (file_element mt = Img ↔ String.prefix "image/" mt = true)
  ∧ (file_element mt = AudioPlayer ↔ String.prefix "audio/" mt = true)
  ∧ (file_element mt = VideoPlayer ↔ String.prefix "video/" mt = true)
  ∧ (file_element mt = Anchor ↔
       String.prefix "image/" mt = false ∧ String.prefix "audio/" mt = false
       ∧ String.prefix "video/" mt = false).
Proof.
  unfold file_element.
  assert (String.prefix "image/" mt = true → String.prefix "audio/" mt = false
          ∧ String.prefix "video/" mt = false) as Hi.
  { destruct mt as [| c mt]; [done |]. intros H. cbn [String.prefix] in *.
    destruct (ascii_dec "i" c) as [<- |]; [| discriminate H].
    split; reflexivity. }
  assert (String.prefix "audio/" mt = true → String.prefix "video/" mt = false) as Ha.
  { destruct mt as [| c mt]; [done |]. intros H. cbn [String.prefix] in *.
    destruct (ascii_dec "a" c) as [<- |]; [| discriminate H].
    reflexivity. }
  destruct (String.prefix "image/" mt) eqn:H1.
  - destruct (Hi eq_refl) as [-> ->]. repeat split; try done; intros; try done.
    + by destruct H.
  - destruct (String.prefix "audio/" mt) eqn:H2.
    + rewrite (Ha eq_refl). repeat split; try done. by intros (_ & ? & _).
    + destruct (String.prefix "video/" mt) eqn:H3; repeat split; try done.
      by intros (_ & _ & ?).
Qed.
